(** * Communities of Interest: pattern overlays (src/layers/COI.js)

    A shallow embedding of the COI layer of districtr and the properties of
    its pipeline: cluster filtering, the unit map, pattern allocation, image
    loading and the compiled style expressions.

    How the JavaScript is read:
    - an object is the list of its own properties in the order
      [Object.entries] lists them (array indices first, ascending, then the
      other keys as created), and its prototype is [Object.prototype], whose
      properties every object inherits: [read] is [o[k]] with what is
      inherited, [assign] is [o[k] = v] with the setter of "__proto__", and
      [set] defines an own property, as [Object.fromEntries] does;
    - a string is the sequence of its UTF-16 code units, one character per
      unit, the units being those below 256;
    - a thrown exception is a value of [result]; loops whose body may throw
      are [for_of];
    - a cluster is a record whose [plan], and a plan a record whose [parts]
      and [assignment], may be undefined, null, a boolean, a number or a
      string instead of an object or array; the identifier of a plan, and
      the identifier and the name of a part, may be missing; identifiers are
      safe integers or strings and become property keys in decimal notation;
    - the text of a built-in function depends on the engine, which is a
      parameter ([Engine]);
    - the map and the unit layer are logs of the calls they receive; the
      promises of [loadPatterns] are a list of promise states, and the
      engine is a list of reports, in any order, on the images requested;
    - numbers in expressions are binary64 floats. *)

From Stdlib Require Import Floats ZArith Lia.
From stdpp Require Import base list strings pretty sorting.

(** ** The fragment of JavaScript the module relies on *)

Module JS.

(** *** Exceptions *)

Inductive error := TypeError.

Inductive result (A : Type) : Type :=
  | Ok (a : A)
  | Throw (e : error).
Arguments Ok {A} a.
Arguments Throw {A} e.

#[global] Instance result_ret : MRet result := fun A a => Ok a.
#[global] Instance result_bind : MBind result := fun A B f m =>
  match m with
  | Ok a => f a
  | Throw e => Throw e
  end.
#[global] Instance result_fmap : FMap result := fun A B f m =>
  match m with
  | Ok a => Ok (f a)
  | Throw e => Throw e
  end.

(** A [for ... of] loop whose body may throw, threading the variables the
    body assigns. *)
Fixpoint for_of {A S : Type} (body : S → A → result S) (l : list A) (s : S)
  : result S :=
  match l with
  | [] => Ok s
  | x :: l' => s' ← body s x; for_of body l' s'
  end.

(** [Array.prototype.filter] with a callback that may throw. *)
Fixpoint filter_array {A : Type} (f : A → result bool) (l : list A)
  : result (list A) :=
  match l with
  | [] => Ok []
  | x :: l' =>
      b ← f x;
      rest ← filter_array f l';
      Ok (if b : bool then x :: rest else rest)
  end.

(** *** Values a field of a JSON record may hold, and [Boolean(v)] *)

(** JSON booleans, numbers (the integers among them) and strings. *)
Inductive primitive :=
  | PBool (b : bool)
  | PNum (n : Z)
  | PStr (s : string).

Inductive field (A : Type) : Type :=
  | Undefined
  | Null
  | Primitive (p : primitive)
  | Object (a : A).
Arguments Undefined {A}.
Arguments Null {A}.
Arguments Primitive {A} p.
Arguments Object {A} a.

Definition Boolean {A : Type} (v : field A) : bool :=
  match v with
  | Undefined | Null => false
  | Primitive (PBool b) => b
  | Primitive (PNum n) => negb (n =? 0)%Z
  | Primitive (PStr s) => negb (String.eqb s EmptyString)
  | Object _ => true
  end.

(** [v.name] for a property [name] that only records have: a TypeError when
    [v] is undefined or null, undefined when [v] is a boolean, a number or a
    string. *)
Definition property {A B : Type} (name : A → field B) (v : field A)
  : result (field B) :=
  match v with
  | Undefined | Null => Throw TypeError
  | Primitive _ => Ok Undefined
  | Object a => Ok (name a)
  end.

(** *** Property keys

    An identifier coming from JSON is a number or a string; used as a
    property key it is converted to a string. The numbers are the integers
    that a binary64 number holds exactly, one number each, and that are
    written in decimal notation: those of [Number.isSafeInteger]. *)

Record safe_integer := SafeInteger {
  integer : Z;
  is_safe : Is_true (Z.abs integer <=? 9007199254740991)%Z
}.

Abbreviation safe n := (SafeInteger n%Z I).

Inductive ident :=
  | Num (n : safe_integer)
  | Str (s : string).

Definition ToPropertyKey (i : ident) : string :=
  match i with
  | Num n => pretty (integer n)
  | Str s => s
  end.

(** The key of an identifier that may be missing: undefined is converted to
    "undefined". *)
Definition property_key (id : option ident) : string :=
  match id with
  | Some i => ToPropertyKey i
  | None => "undefined"
  end.

Definition digit_value (a : Ascii.ascii) : option N :=
  let n := Ascii.N_of_ascii a in
  if ((48 <=? n) && (n <=? 57))%N then Some (n - 48)%N else None.

Fixpoint digits_value (acc : N) (s : string) : option N :=
  match s with
  | EmptyString => Some acc
  | String a s' =>
      match digit_value a with
      | Some d => digits_value (acc * 10 + d) s'
      | None => None
      end
  end.

(** An array index is a canonical numeric string below 2^32 - 1. *)
Definition array_index (k : string) : option N :=
  match k with
  | EmptyString => None
  | _ =>
      match digits_value 0 k with
      | Some n =>
          if (String.eqb (pretty n) k && (n <? 4294967295)%N)%bool
          then Some n else None
      | None => None
      end
  end.

(** *** Ordinary objects: own properties in enumeration order

    Array-index keys come first in ascending order, the other keys follow in
    the order they were created. The prototype of an object is
    [Object.prototype]. *)

Definition obj (V : Type) : Type := list (string * V).

Section Objects.
Context {V : Type}.

Definition Object_entries (o : obj V) : list (string * V) := o.
Definition Object_keys (o : obj V) : list string := o.*1.
Definition Object_values (o : obj V) : list V := o.*2.

(** The own property [k] of [o]; [None] when there is none. *)
Fixpoint get (k : string) (o : obj V) : option V :=
  match o with
  | [] => None
  | (k', v) :: o' => if decide (k' = k) then Some v else get k o'
  end.

(** Overwriting an existing property keeps its place. *)
Fixpoint overwrite (k : string) (v : V) (o : obj V) : obj V :=
  match o with
  | [] => []
  | (k', v') :: o' =>
      if decide (k' = k) then (k', v) :: o' else (k', v') :: overwrite k v o'
  end.

(** A new array-index key goes before the first larger index and before
    every string key. *)
Fixpoint create_index (n : N) (k : string) (v : V) (o : obj V) : obj V :=
  match o with
  | [] => [(k, v)]
  | (k', v') :: o' =>
      match array_index k' with
      | Some n' =>
          if (n <? n')%N then (k, v) :: o
          else (k', v') :: create_index n k v o'
      | None => (k, v) :: o
      end
  end.

Definition create (k : string) (v : V) (o : obj V) : obj V :=
  match array_index k with
  | Some n => create_index n k v o
  | None => o ++ [(k, v)]
  end.

(** The own property [k] defined as [v]: what [o[k] = v] does for every
    key but "__proto__", and [Object.fromEntries] for every key. *)
Definition set (k : string) (v : V) (o : obj V) : obj V :=
  match get k o with
  | Some _ => overwrite k v o
  | None => create k v o
  end.

(** [o[k] = v]. An object that has no property "__proto__" of its own
    gets none by assignment: the assignment reaches the setter that
    [Object.prototype] has under this key, which replaces the prototype of
    [o] when [v] is an object and does nothing otherwise. Every other key
    that [o] does not have is created, also one that [o] inherits. *)
Definition assign (k : string) (v : V) (o : obj V) : obj V :=
  match get k o with
  | Some _ => set k v o
  | None => if decide (k = "__proto__") then o else set k v o
  end.

(** [Object.fromEntries]. *)
Definition Object_fromEntries (es : list (string * V)) : obj V :=
  fold_left (fun o e => set e.1 e.2 o) es [].
End Objects.

(** *** What every object inherits

    The properties of [Object.prototype]: eleven functions, and the accessor
    "__proto__", whose getter returns the prototype of the object it is read
    from. *)

Definition Object_prototype : list string :=
  [ "constructor"; "__defineGetter__"; "__defineSetter__"; "hasOwnProperty";
    "__lookupGetter__"; "__lookupSetter__"; "isPrototypeOf";
    "propertyIsEnumerable"; "toString"; "valueOf"; "__proto__";
    "toLocaleString" ].

(** What [o[k]] finds: an own property, the property [name] of
    [Object.prototype], or nothing, which is undefined. *)
Inductive reading (V : Type) : Type :=
  | Own (v : V)
  | Inherited (name : string)
  | Nothing.
Arguments Own {V} v.
Arguments Inherited {V} name.
Arguments Nothing {V}.

(** [o[k]]. *)
Definition read {V : Type} (k : string) (o : obj V) : reading V :=
  match get k o with
  | Some v => Own v
  | None => if decide (k ∈ Object_prototype) then Inherited k else Nothing
  end.

(** The text [Function.prototype.toString] gives the built-in function
    found under [name] in [Object.prototype]. ECMAScript fixes its syntax,
    which starts with the word function, and leaves the white space, and so
    the text, to the engine. *)
Class Engine := {
  Function_toString : string → string;
  NativeFunction (name : string) :
    ∃ rest, Function_toString name = "function" +:+ rest
}.

(** [String(v)] for the value [v] that [o[name]] inherits: the text of a
    built-in function, and for "__proto__", where [v] is [Object.prototype],
    what [Object.prototype.toString] makes of an object. *)
Definition inherited_text {engine : Engine} (name : string) : string :=
  if decide (name = "__proto__") then "[object Object]"
  else Function_toString name.

(** The texts of V8; the function under "constructor" is [Object]. *)
Definition V8 : Engine :=
  {| Function_toString name :=
       "function " +:+
       (if decide (name = "constructor") then "Object" else name) +:+
       "() { [native code] }";
     NativeFunction name :=
       ex_intro _
         (" " +:+ (if decide (name = "constructor") then "Object" else name)
              +:+ "() { [native code] }")
         eq_refl |}.

(** *** Arrays *)

(** [a.shift()]: the first element (undefined on an empty array) and the
    array that is left. *)
Definition shift {A : Type} (a : list A) : option A * list A :=
  match a with
  | [] => (None, [])
  | x :: a' => (Some x, a')
  end.

(** [a.slice(0, n)] for a count [n]. *)
Definition slice0 {A : Type} (n : nat) (a : list A) : list A := take n a.

(** [a.includes(x)] on an array of strings. *)
Definition includes (x : string) (a : list string) : bool :=
  bool_decide (x ∈ a).

(** *** Strings *)

(** The rest of [s] after the prefix [pat], when [s] starts with it. *)
Fixpoint strip_prefix (pat s : string) : option string :=
  match pat, s with
  | EmptyString, _ => Some s
  | String a pat', String b s' =>
      if decide (a = b) then strip_prefix pat' s' else None
  | String _ _, EmptyString => None
  end.

(** [s.replace(pat, rep)] with a string pattern: the first occurrence. *)
Fixpoint replace (pat rep s : string) : string :=
  match strip_prefix pat s with
  | Some rest => rep +:+ rest
  | None =>
      match s with
      | EmptyString => EmptyString
      | String a s' => String a (replace pat rep s')
      end
  end.

End JS.
Import JS.

(** ** The data model *)

(** The value of an assignment entry: one COI identifier or an array. *)
Inductive coiids :=
  | One (coiid : ident)
  | Many (coiids : list ident).

(** A part; [None] is an identifier or a name that is missing. *)
Record part := { part_id : option ident; part_name : option string }.

(** A plan; the identifier may be missing, [parts] is an array of parts and
    [assignment] an object when they are what they should be. *)
Record plan := {
  plan_id : option ident;
  plan_parts : field (list part);
  plan_assignment : field (obj coiids)
}.

Record cluster := { cluster_plan : field plan }.

(** cluster identifier -> COI name -> units *)
Abbreviation UnitMap := (obj (obj (list string))).

(** cluster identifier -> COI name -> pattern name; [None] is undefined. *)
Abbreviation PatternMatch := (obj (obj (option string))).

(** ** filterCOIs *)

Definition rules : list (cluster → result bool) :=
  [ (λ coi, Ok (Boolean (cluster_plan coi)));
    (λ coi, assignment ← property plan_assignment (cluster_plan coi);
            Ok (Boolean assignment)) ].

(** [for (let rule of rules) if (!rule(cluster)) return false; return true] *)
Fixpoint filterer_loop (rules : list (cluster → result bool))
    (cluster : cluster) : result bool :=
  match rules with
  | [] => Ok true
  | rule :: rules' =>
      passed ← rule cluster;
      if passed : bool then filterer_loop rules' cluster else Ok false
  end.

Definition filterer : cluster → result bool := filterer_loop rules.

Definition filterCOIs (clusters : list cluster) : result (list cluster) :=
  filter_array filterer clusters.

(** The two conditions of the validator, as predicates on a cluster. *)
Definition truthy_plan (c : cluster) : bool := Boolean (cluster_plan c).

Definition truthy_assignment (c : cluster) : bool :=
  match cluster_plan c with
  | Object plan => Boolean (plan_assignment plan)
  | Undefined | Null | Primitive _ => false
  end.

Definition eligible (c : cluster) : bool :=
  truthy_plan c && truthy_assignment c.

(** ** createUnitMap *)

(** [if (!Array.isArray(coiids)) coiids = [coiids]] *)
Definition as_array (c : coiids) : list ident :=
  match c with
  | Many l => l
  | One coiid => [coiid]
  end.

(** [for (let part of cluster.plan.parts) identifiers[part.id] = part.name];
    a name that is missing is the value undefined. *)
Definition identifiers_of (parts : list part) : obj (option string) :=
  fold_left
    (λ identifiers part,
       assign (property_key (part_id part)) (part_name part) identifiers)
    parts [].

(** The key that [name], read from [identifiers], is converted to in
    [clusterMap[name]]. *)
Definition key_of_name {engine : Engine} (name : reading (option string)) : string :=
  match name with
  | Own (Some s) => s
  | Own None | Nothing => "undefined"
  | Inherited k => inherited_text k
  end.

(** The body of the loop over [coiids]. What [clusterMap] has under the key
    is an array, to which the unit is pushed; what it inherits under the key
    is not undefined either, and has no [push]: a TypeError. *)
Definition add_unit {engine : Engine} (identifiers : obj (option string))
    (unit : string) (clusterMap : obj (list string)) (coiid : ident)
  : result (obj (list string)) :=
  let name := read (ToPropertyKey coiid) identifiers in
  match read (key_of_name name) clusterMap with
  | Own units => Ok (set (key_of_name name) (units ++ [unit]) clusterMap)
  | Inherited _ => Throw TypeError
  | Nothing => Ok (assign (key_of_name name) [unit] clusterMap)
  end.

(** The loop over the entries of the assignment. *)
Definition clusterMap_of {engine : Engine} (identifiers : obj (option string))
    (entries : list (string * coiids)) : result (obj (list string)) :=
  for_of
    (λ (clusterMap : obj (list string)) (entry : string * coiids),
       let '(unit, coiids) := entry in
       for_of (add_unit identifiers unit) (as_array coiids) clusterMap)
    entries [].

(** [cluster.plan.id] and [cluster.plan.parts]: reading them from undefined
    or null is a TypeError; a boolean, a number and a string have neither,
    and the loop over [parts], then undefined, is a TypeError too. *)
Definition plan_of (v : field plan) : result plan :=
  match v with
  | Object plan => Ok plan
  | Undefined | Null | Primitive _ => Throw TypeError
  end.

(** What [for (let part of cluster.plan.parts)] iterates: the elements of an
    array, the characters of a string, which have neither [id] nor [name];
    undefined, null, a boolean and a number are a TypeError. *)
Definition parts_of (v : field (list part)) : result (list part) :=
  match v with
  | Object parts => Ok parts
  | Primitive (PStr s) =>
      Ok ((λ _, {| part_id := None; part_name := None |})
            <$> String.list_ascii_of_string s)
  | Undefined | Null | Primitive (PBool _) | Primitive (PNum _) =>
      Throw TypeError
  end.

(** [Object.entries(cluster.plan.assignment)]: a TypeError on undefined and
    null, nothing for a boolean or a number, the characters of a string by
    index. *)
Definition assignment_entries (v : field (obj coiids))
  : result (list (string * coiids)) :=
  match v with
  | Undefined | Null => Throw TypeError
  | Primitive (PStr s) =>
      Ok (imap (λ i c, (pretty i, One (Str (String c EmptyString))))
               (String.list_ascii_of_string s))
  | Primitive (PBool _) | Primitive (PNum _) => Ok []
  | Object assignment => Ok (Object_entries assignment)
  end.

Definition createUnitMap {engine : Engine} (clusters : list cluster)
  : result UnitMap :=
  for_of
    (λ (unitMap : UnitMap) cluster,
       plan ← plan_of (cluster_plan cluster);
       let clusterIdentifier := plan_id plan in
       parts ← parts_of (plan_parts plan);
       let identifiers := identifiers_of parts in
       entries ← assignment_entries (plan_assignment plan);
       clusterMap ← clusterMap_of identifiers entries;
       Ok (assign (property_key clusterIdentifier) clusterMap unitMap))
    clusters [].

(** ** loadPatterns and resolvesToArray

    The map is the log of the calls it received. An image and a load error
    are values of the engine, of which nothing is known here. *)

Section AssetLoader.
Variables image load_error : Type.

Inductive map_call :=
  | LoadImage (url : string)
  | AddImage (name : string) (img : option image).

Inductive promise :=
  | Pending
  | Fulfilled (value : string)
  | Rejected (reason : string).

(** The state [loadPatterns] leaves behind: the map, the promises it
    pushed, and for each promise the pattern its load callback closes
    over. *)
Record loading := {
  map : list map_call;
  patternLoadingPromises : list promise;
  callbacks : list string
}.

(** [resolve] and [reject] of the promise at index [i]: no effect once the
    promise is settled. *)
Definition settle (i : nat) (p : promise) (st : loading) : loading :=
  match patternLoadingPromises st !! i with
  | Some Pending =>
      {| map := map st;
         patternLoadingPromises := <[i := p]> (patternLoadingPromises st);
         callbacks := callbacks st |}
  | _ => st
  end.

Definition resolve (i : nat) (value : string) : loading → loading :=
  settle i (Fulfilled value).

Definition reject (i : nat) (reason : string) : loading → loading :=
  settle i (Rejected reason).

Definition addImage (name : string) (img : option image) (st : loading)
  : loading :=
  {| map := map st ++ [AddImage name img];
     patternLoadingPromises := patternLoadingPromises st;
     callbacks := callbacks st |}.

(** The callback given to [map.loadImage] by the executor of promise [i]. *)
Definition load_callback (i : nat) (pattern : string)
    (error : option load_error) (img : option image) (st : loading)
  : loading :=
  let st := if error is Some _ then reject i "transparent" st else st in
  let st := addImage pattern img st in
  resolve i pattern st.

(** The loop of [loadPatterns]: each executor runs at once and calls
    [map.loadImage]. *)
Definition loadPatterns (map0 : list map_call) (patternMapping : obj string)
  : loading :=
  fold_left
    (λ st entry,
       let '(pattern, url) := entry in
       {| map := map st ++ [LoadImage url];
          patternLoadingPromises := patternLoadingPromises st ++ [Pending];
          callbacks := callbacks st ++ [pattern] |})
    (Object_entries patternMapping)
    {| map := map0; patternLoadingPromises := []; callbacks := [] |}.

(** The engine reports on request [i] with the arguments [(error, img)]. *)
Definition report (st : loading)
    (r : nat * option load_error * option image) : loading :=
  let '(i, error, img) := r in
  match callbacks st !! i with
  | Some pattern => load_callback i pattern error img st
  | None => st
  end.

Definition run (reports : list (nat * option load_error * option image))
    (st : loading) : loading :=
  fold_left report reports st.

(** An entry of the array [Promise.allSettled] fulfils with. *)
Inductive settlement :=
  | fulfilled (value : string)
  | rejected (reason : string).

Definition settlement_of (p : promise) : option settlement :=
  match p with
  | Pending => None
  | Fulfilled v => Some (fulfilled v)
  | Rejected r => Some (rejected r)
  end.

(** [Promise.allSettled]: [None] while a promise is pending. *)
Definition Promise_allSettled (ps : list promise)
  : option (list settlement) :=
  mapM settlement_of ps.

(** [result.value]: undefined ([None]) on a rejected entry. *)
Definition value (r : settlement) : option string :=
  match r with
  | fulfilled v => Some v
  | rejected _ => None
  end.

Definition resolvesToArray (results : list settlement)
  : list (option string) :=
  fold_left (λ values r, values ++ [value r]) results [].

(** [loadPatterns(map, ...).then(resolvesToArray)] after the engine made
    the given reports; [None] when the promise is still pending. *)
Definition loadedPatterns (map0 : list map_call)
    (patternMapping : obj string)
    (reports : list (nat * option load_error * option image))
  : option (list (option string)) :=
  resolvesToArray <$>
    Promise_allSettled
      (patternLoadingPromises (run reports (loadPatterns map0 patternMapping))).
End AssetLoader.

Arguments LoadImage {image} url.
Arguments AddImage {image} name img.
Arguments map {image} _.
Arguments patternLoadingPromises {image} _.
Arguments callbacks {image} _.
Arguments settle {image} i p st.
Arguments resolve {image} i value _.
Arguments reject {image} i reason _.
Arguments addImage {image} name img st.
Arguments load_callback {image load_error} i pattern error img st.
Arguments loadPatterns {image} map0 patternMapping.
Arguments report {image load_error} st r.
Arguments run {image load_error} reports st.
Arguments loadedPatterns {image load_error} map0 patternMapping reports.

(** ** patternsToCOIs *)

(** [o[k]] for a key that [o] was given by [set] just before, read in order
    to access a property of it: the own property. *)
Definition member {V : Type} (k : string) (o : obj V) : result V :=
  match get k o with
  | Some v => Ok v
  | None => Throw TypeError
  end.

(** The array [patterns] is consumed by [shift]; what is left of it is
    returned next to the mapping. The unit map is one that [createUnitMap]
    built: neither a cluster nor a COI has the key "__proto__", so that the
    assignments [mapping[clusterIdentifier] = {}] and
    [mapping[clusterIdentifier][coiIdentifier] = ...] define own properties,
    which is [set]. *)
Definition patternsToCOIs (unitMap : UnitMap) (patterns : list string)
  : result (PatternMatch * list string) :=
  for_of
    (λ (st : PatternMatch * list string) (entry : string * obj (list string)),
       let '(mapping, patterns) := st in
       let '(clusterIdentifier, cluster) := entry in
       let mapping := set clusterIdentifier [] mapping in
       for_of
         (λ (st : PatternMatch * list string) coiIdentifier,
            let '(mapping, patterns) := st in
            inner ← member clusterIdentifier mapping;
            let '(pattern, patterns) := shift patterns in
            Ok (set clusterIdentifier (set coiIdentifier pattern inner) mapping,
                patterns))
         (Object_keys cluster) (mapping, patterns))
    (Object_entries unitMap) ([], patterns).

(** ** include *)

Definition include {V : Type} (object : obj V) (included : list string)
  : obj V :=
  Object_fromEntries
    (List.filter (λ entry, includes entry.1 included) (Object_entries object)).

(** ** Style expressions *)

#[warnings="-register-all"]
Inductive expr :=
  | Undef
  | Number (x : float)
  | Text (s : string)
  | Array (l : list expr)
  | Builtin (path : list string).

(** The unit-rendering target: its type and the calls it received. *)
Inductive layer_call :=
  | SetPaintProperty (name : string) (value : expr)
  | SetOpacity (opacity : float).

Record layer := { layer_type : string; layer_calls : list layer_call }.

Definition setPaintProperty (name : string) (value : expr) (units : layer)
  : layer :=
  {| layer_type := layer_type units;
     layer_calls := layer_calls units ++ [SetPaintProperty name value] |}.

Definition setOpacity (opacity : float) (units : layer) : layer :=
  {| layer_type := layer_type units;
     layer_calls := layer_calls units ++ [SetOpacity opacity] |}.

(** [["in", ["get", "GEOID20"], ["literal", geoids]]] *)
Definition subexpression (geoids : list string) : expr :=
  Array [Text "in";
         Array [Text "get"; Text "GEOID20"];
         Array [Text "literal"; Array (Text <$> geoids)]].

(** [opacity = 1/3] applies when the argument is left out. *)
Definition opacityStyleExpression (units : layer) (geoids : list string)
    (opacity : option float) : layer :=
  let opacity := default (1 / 3)%float opacity in
  let filter := Array [Text "case"; subexpression geoids;
                       Number 0%float; Number opacity] in
  let layer := replace "symbol" "icon" (layer_type units) +:+ "-opacity" in
  setPaintProperty layer filter units.

(** [patternMatch[clusterIdentifier][coiName]]. Without an entry for the
    cluster the first reading is undefined, and the second a TypeError,
    unless the cluster has the name of a property that objects inherit;
    [Builtin path] is the value that an empty object has at [path], read
    property by property, whatever the engine has there. *)
Definition pattern_expr (patternMatch : PatternMatch)
    (clusterIdentifier coiName : string) : result expr :=
  match read clusterIdentifier patternMatch with
  | Own patterns =>
      Ok (match read coiName patterns with
          | Own (Some pattern) => Text pattern
          | Own None | Nothing => Undef
          | Inherited name => Builtin [name]
          end)
  | Inherited name => Ok (Builtin [name; coiName])
  | Nothing => Throw TypeError
  end.

Definition patternStyleExpression (units : layer) (unitMap : UnitMap)
    (patternMatch : PatternMatch) : result (expr * layer) :=
  expression ←
    for_of
      (λ (expression : list expr) (entry : string * obj (list string)),
         let '(clusterIdentifier, cluster) := entry in
         for_of
           (λ (expression : list expr) (entry : string * list string),
              let '(coiName, geoids) := entry in
              pattern ← pattern_expr patternMatch clusterIdentifier coiName;
              Ok (expression ++ [subexpression geoids; pattern]))
           (Object_entries cluster) expression)
      (Object_entries unitMap) [Text "case"];
  let expression := expression ++ [Text "transparent"] in
  Ok (Array expression,
      setPaintProperty "fill-pattern" (Array expression) units).

(** ** addCOIs: from the fetched clusters and patterns to the allocation *)

Definition numberOfNames (unitMap : UnitMap) : nat :=
  fold_left
    (λ numberOfNames cluster, numberOfNames + length (Object_keys cluster))
    (Object_values unitMap) 0.

Record allocation := {
  alloc_unitMap : UnitMap;
  alloc_names : list string;
  alloc_chosenPatterns : obj string;
  alloc_patternMatch : PatternMatch
}.

(** The part of [addCOIs] between the two fetches and [loadPatterns]. *)
Definition allocate (unitMap : UnitMap) (patterns : obj string)
  : result allocation :=
  let names := slice0 (numberOfNames unitMap) (Object_keys patterns) in
  let chosenPatterns := include patterns names in
  '(patternMatch, _) ← patternsToCOIs unitMap names;
  Ok {| alloc_unitMap := unitMap;
        alloc_names := names;
        alloc_chosenPatterns := chosenPatterns;
        alloc_patternMatch := patternMatch |}.

Definition addCOIs_allocation {engine : Engine} (clusters : list cluster)
    (patterns : obj string) : result allocation :=
  filtered ← filterCOIs clusters;
  unitMap ← createUnitMap filtered;
  allocate unitMap patterns.

(** The last step of [addCOIs], once the patterns are loaded: the style
    expression is compiled and the target is given opacity 0. *)
Definition addCOIs_style (coiunits : layer) (a : allocation)
  : result (expr * layer) :=
  '(expression, coiunits) ←
    patternStyleExpression coiunits (alloc_unitMap a) (alloc_patternMatch a);
  Ok (expression, setOpacity 0%float coiunits).

(** ** Vocabulary of the properties *)

(** [k1] may come before [k2] when an object lists its own keys: array
    indices ascend and come before the other keys. *)
Definition key_before (k1 k2 : string) : Prop :=
  match array_index k1, array_index k2 with
  | Some n1, Some n2 => (n1 < n2)%N
  | Some _, None => True
  | None, Some _ => False
  | None, None => True
  end.

Definition in_key_order {V : Type} (o : obj V) : Prop :=
  StronglySorted key_before (Object_keys o).

(** A list of properties is an object when no key occurs twice. *)
Definition is_object {V : Type} (o : obj V) : Prop := NoDup (Object_keys o).

Definition is_unitMap (unitMap : UnitMap) : Prop :=
  is_object unitMap ∧ Forall (λ entry, is_object entry.2) unitMap.

(** The (cluster, COI name) pairs of a unit map, in its enumeration order. *)
Definition pairs (unitMap : UnitMap) : list (string * string) :=
  entry ← Object_entries unitMap;
  (λ coiName, (entry.1, coiName)) <$> Object_keys entry.2.

(** The pattern that the mapping holds for a pair; [None] is undefined. *)
Definition assigned (patternMatch : PatternMatch) (pair : string * string)
  : option string :=
  inner ← get pair.1 patternMatch;
  mjoin (get pair.2 inner).

(** The queue as the pairs see it: position [i] holds a name or nothing. *)
Definition served (ps : list string) (n : nat) : list (option string) :=
  (λ i, ps !! i) <$> seq 0 n.

(** The property that stands for an identifier in the data model: a
    number in decimal notation, a string as it is, and "undefined" for an
    identifier that is missing. *)
Definition label (id : option ident) : string :=
  match id with
  | Some (Num n) => pretty (integer n)
  | Some (Str s) => s
  | None => "undefined"
  end.

(** The key under which a cluster is filed. *)
Definition cluster_key (c : cluster) : option string :=
  match cluster_plan c with
  | Object plan => Some (label (plan_id plan))
  | Undefined | Null | Primitive _ => None
  end.

(** No cluster after [c] in the list is filed under the key of [c]: the
    entry [createUnitMap] makes for [c] is not overwritten. *)
Definition last_with_its_key (clusters : list cluster) (c : cluster) : Prop :=
  ∃ before after,
    clusters = before ++ c :: after ∧
    cluster_key c ∉ cluster_key <$> after.

(** The identifiers of an assignment value: the one it is, or the ones it
    lists. *)
Definition mentioned (c : coiids) : list ident :=
  match c with
  | One coiid => [coiid]
  | Many coiids => coiids
  end.

(** The part that names an identifier: the last part of the table that has
    the identifier. A part whose identifier is "__proto__" names nothing. *)
Fixpoint naming_part (parts : list part) (coiid : ident) : option part :=
  match parts with
  | [] => None
  | part :: parts' =>
      match naming_part parts' coiid with
      | Some later => Some later
      | None =>
          if decide (label (part_id part) = label (Some coiid) ∧
                     label (part_id part) ≠ "__proto__")
          then Some part else None
      end
  end.

(** The COI name that the table resolves an identifier to; [None] when no
    part names the identifier, or one without a name does. *)
Definition resolved_name (parts : list part) (coiid : ident) : option string :=
  part ← naming_part parts coiid; part_name part.

(** The key of the list that collects the units of an identifier: the COI
    name it resolves to; "undefined" when it resolves to none; but, for an
    identifier that no part names and that is the name of a property that
    objects inherit, the text of what is inherited. *)
Definition bucket {engine : Engine} (parts : list part) (coiid : ident) : string :=
  match naming_part parts coiid with
  | Some part => default "undefined" (part_name part)
  | None =>
      if decide (label (Some coiid) ∈ Object_prototype)
      then if decide (label (Some coiid) = "__proto__")
           then "[object Object]"
           else Function_toString (label (Some coiid))
      else "undefined"
  end.





(** The identifiers that an assignment uses, in its order: those its values
    mention, and for a string its characters. *)
Definition identifiers_used (assignment : field (obj coiids)) : list ident :=
  match assignment with
  | Object assignment => entry ← assignment; mentioned entry.2
  | Primitive (PStr s) =>
      (λ c, Str (String c EmptyString)) <$> String.list_ascii_of_string s
  | Undefined | Null | Primitive (PBool _) | Primitive (PNum _) => []
  end.

(** A cluster that can be filed: its plan is an object; its parts are an
    array, or a string, whose characters name nothing; its assignment is
    neither undefined nor null; and no identifier that the assignment uses
    resolves to a COI name that is the name of a property that objects
    inherit. *)
Definition files (c : cluster) : bool :=
  match cluster_plan c with
  | Object plan =>
      match plan_assignment plan with
      | Undefined | Null => false
      | Primitive _ | Object _ =>
          match plan_parts plan with
          | Object parts =>
              forallb
                (λ coiid,
                   bool_decide
                     (default "undefined" (resolved_name parts coiid)
                        ∉ Object_prototype))
                (identifiers_used (plan_assignment plan))
          | Primitive (PStr _) => true
          | Undefined | Null | Primitive (PBool _) | Primitive (PNum _) =>
              false
          end
      end
  | Undefined | Null | Primitive _ => false
  end.

(** The (cluster, COI name, unit list) triples of a unit map, in its
    enumeration order. *)
Definition triples (unitMap : UnitMap) : list (string * string * list string) :=
  entry ← Object_entries unitMap;
  (λ coi, (entry.1, coi.1, coi.2)) <$> Object_entries entry.2.

(** A pattern name, or undefined, as an element of an expression. *)
Definition expr_of_pattern (pattern : option string) : expr :=
  match pattern with
  | Some name => Text name
  | None => Undef
  end.

(** The membership test of a triple followed by the pattern of its COI. *)
Definition branch (patternMatch : PatternMatch)
    (triple : string * string * list string) : list expr :=
  [ subexpression triple.2;
    expr_of_pattern (assigned patternMatch (triple.1.1, triple.1.2)) ].

(** The test that the GEOID20 of a unit is among [geoids]. *)
Definition membership (geoids : list string) : expr :=
  Array [ Text "in";
          Array [Text "get"; Text "GEOID20"];
          Array [Text "literal"; Array (Text <$> geoids)] ].

(** The membership test on the unit list of a triple, followed by the
    pattern that the mapping holds for its COI. *)
Definition case_branch (patternMatch : PatternMatch)
    (triple : string * string * list string) : list expr :=
  [ membership triple.2;
    expr_of_pattern (assigned patternMatch (triple.1.1, triple.1.2)) ].

(** The pattern mapping has an entry, a pattern name or undefined, for
    every (cluster, COI) pair of the unit map. *)
Definition allots (patternMatch : PatternMatch) (unitMap : UnitMap) : Prop :=
  ∀ pair, pair ∈ pairs unitMap →
    ∃ patterns, get pair.1 patternMatch = Some patterns ∧
                is_Some (get pair.2 patterns).

(** The arguments of the first report the engine made on request [i]. *)
Fixpoint first_report {load_error image : Type} (i : nat)
    (reports : list (nat * option load_error * option image))
  : option (option load_error * option image) :=
  match reports with
  | [] => None
  | (j, error, img) :: reports' =>
      if decide (j = i) then Some (error, img) else first_report i reports'
  end.

(** The state of the promise of [pattern] after such a first report. *)
Definition promise_after {load_error image : Type} (pattern : string)
    (r : option (option load_error * option image)) : promise :=
  match r with
  | None => Pending
  | Some (Some _, _) => Rejected "transparent"
  | Some (None, _) => Fulfilled pattern
  end.

(** The entry of the final array for [pattern] after such a first report. *)
Definition entry_after {load_error image : Type} (pattern : string)
    (r : option (option load_error * option image)) : option string :=
  match r with
  | Some (Some _, _) => None
  | Some (None, _) | None => Some pattern
  end.

(** No pattern name is held at two positions. *)
Definition no_reuse (l : list (option string)) : Prop :=
  ∀ i j name, l !! i = Some (Some name) → l !! j = Some (Some name) → i = j.

(** ** The scenario of two clusters and three patterns *)

Module Scenario.

Definition assignmentA : obj coiids :=
  [ ("unit1", One (Num (safe 0)));
    ("unit2", Many [Num (safe 0); Num (safe 1)]) ].

Definition partsA : list part :=
  [ {| part_id := Some (Num (safe 0)); part_name := Some "Alpha" |};
    {| part_id := Some (Num (safe 1)); part_name := Some "Beta" |} ].

Definition planA : plan :=
  {| plan_id := Some (Str "A");
     plan_parts := Object partsA;
     plan_assignment := Object assignmentA |}.

Definition clusterA : cluster := {| cluster_plan := Object planA |}.

Definition clusterB : cluster :=
  {| cluster_plan := Object
       {| plan_id := Some (Str "B");
          plan_parts :=
            Object [ {| part_id := Some (Num (safe 5));
                        part_name := Some "Gamma" |} ];
          plan_assignment := Object [ ("unit3", One (Num (safe 5))) ] |} |}.

Definition clusters : list cluster := [clusterA; clusterB].

Definition catalog : obj string :=
  [ ("p1", "url1"); ("p2", "url2"); ("p3", "url3") ].

Definition unitMap : UnitMap :=
  [ ("A", [ ("Alpha", ["unit1"; "unit2"]); ("Beta", ["unit2"]) ]);
    ("B", [ ("Gamma", ["unit3"]) ]) ].

Definition patternMatch : PatternMatch :=
  [ ("A", [ ("Alpha", Some "p1"); ("Beta", Some "p2") ]);
    ("B", [ ("Gamma", Some "p3") ]) ].

(** A cluster whose assignment names an identifier its parts do not have. *)
Definition dangling_assignment : obj coiids :=
  [ ("unit1", One (Num (safe 0)));
    ("unit9", Many [Num (safe 0); Num (safe 7)]) ].

Definition dangling_parts : list part :=
  [ {| part_id := Some (Num (safe 0)); part_name := Some "Alpha" |} ].

Definition dangling_plan : plan :=
  {| plan_id := Some (Num (safe 42));
     plan_parts := Object dangling_parts;
     plan_assignment := Object dangling_assignment |}.

Definition dangling : cluster := {| cluster_plan := Object dangling_plan |}.

(** Records the validator has to turn down, and one it lets through with
    nothing to map. *)
Definition no_plan : cluster := {| cluster_plan := Undefined |}.
Definition null_plan : cluster := {| cluster_plan := Null |}.
Definition numeric_plan : cluster := {| cluster_plan := Primitive (PNum 5) |}.

Definition plan_with (assignment : field (obj coiids)) : cluster :=
  {| cluster_plan := Object
       {| plan_id := Some (Num (safe 7));
          plan_parts := Object [];
          plan_assignment := assignment |} |}.

(** A catalog one pattern short of the three COIs. *)
Definition short_catalog : obj string := [ ("p1", "url1"); ("p2", "url2") ].

(** A community that its author called "constructor". *)
Definition constructor_parts : list part :=
  [ {| part_id := Some (Num (safe 0)); part_name := Some "constructor" |} ].

Definition constructor_assignment : obj coiids :=
  [ ("unit1", One (Num (safe 0))) ].

Definition constructor_cluster : cluster :=
  {| cluster_plan := Object
       {| plan_id := Some (Num (safe 1));
          plan_parts := Object constructor_parts;
          plan_assignment := Object constructor_assignment |} |}.



(** A plan that has an assignment and no parts. *)
Definition no_parts : cluster :=
  {| cluster_plan := Object
       {| plan_id := Some (Num (safe 3));
          plan_parts := Undefined;
          plan_assignment := Object constructor_assignment |} |}.

(** The layer of the units, before any call. *)
Definition fill_layer : layer := {| layer_type := "fill"; layer_calls := [] |}.

End Scenario.

(** ** Further vocabulary: errors, buckets, shapes *)

(** The units the entries put under [name], in the order of the entries and
    of the identifiers of each entry, once per identifier whose units are
    collected under [name]. *)
Definition units_under {engine : Engine} (parts : list part)
    (entries : list (string * coiids)) (name : string) : list string :=
  entry ← entries;
  coiid ← mentioned entry.2;
  if decide (bucket parts coiid = name) then [entry.1] else [].

(** No key of the object is the name of a property that objects inherit. *)
Definition no_inherited_key {V : Type} (o : obj V) : Prop :=
  Forall (λ k, k ∉ Object_prototype) (Object_keys o).

(** The cluster map that [createUnitMap] builds for a cluster, when it
    builds one. *)
Definition cluster_map {engine : Engine} (c : cluster) : obj (list string) :=
  match
    plan ← plan_of (cluster_plan c);
    parts ← parts_of (plan_parts plan);
    entries ← assignment_entries (plan_assignment plan);
    clusterMap_of (identifiers_of parts) entries
  with
  | Ok clusterMap => clusterMap
  | Throw _ => []
  end.

(** The unit map once a cluster is filed under its key: nothing is filed
    under "__proto__". *)
Definition filed {engine : Engine} (unitMap : UnitMap) (c : cluster)
  : UnitMap :=
  match cluster_key c with
  | Some k => assign k (cluster_map c) unitMap
  | None => unitMap
  end.





(** What the loops keep true of a cluster map: no key is inherited, no key
    occurs twice, and the keys are in the order objects list them. *)
Definition neat (clusterMap : obj (list string)) : Prop :=
  no_inherited_key clusterMap ∧ is_object clusterMap ∧ in_key_order clusterMap.

(** The cluster map after [unit] is collected in the bucket of [coiid], and
    after the units of an entry are. *)
Definition collect {engine : Engine} (parts : list part) (unit : string)
    (clusterMap : obj (list string)) (coiid : ident) : obj (list string) :=
  set (bucket parts coiid)
      (default [] (get (bucket parts coiid) clusterMap) ++ [unit]) clusterMap.

Definition collect_entry {engine : Engine} (parts : list part)
    (clusterMap : obj (list string)) (entry : string * coiids)
  : obj (list string) :=
  fold_left (collect parts entry.1) (mentioned entry.2) clusterMap.

(** The buckets of the identifiers of an entry are not inherited. *)
Definition collects {engine : Engine} (parts : list part)
    (entry : string * coiids) : bool :=
  forallb (λ coiid, bool_decide (bucket parts coiid ∉ Object_prototype))
          (mentioned entry.2).

(** What the loop of [createUnitMap] keeps true of the unit map: it has no
    key "__proto__", no key twice, its keys are in the order objects list
    them, and its cluster maps are neat. *)
Definition built (unitMap : UnitMap) : Prop :=
  get "__proto__" unitMap = None ∧ is_object unitMap ∧
  in_key_order unitMap ∧ Forall (λ entry, neat entry.2) unitMap.

(** A list of units added to what a bucket holds, if anything. *)
Definition extend (bucket : option (list string)) (units : list string)
  : option (list string) :=
  match bucket, units with
  | Some units0, _ => Some (units0 ++ units)
  | None, [] => None
  | None, _ :: _ => Some units
  end.

(** The unit map with, in the place of each unit list, what the queue of
    patterns holds at the position of the pair: a name, or undefined past
    the end of the queue. *)
Fixpoint relabelled (unitMap : UnitMap) (patterns : list string)
  : PatternMatch :=
  match unitMap with
  | [] => []
  | (clusterIdentifier, cluster) :: unitMap' =>
      (clusterIdentifier, imap (λ i coi, (coi.1, patterns !! i)) cluster)
      :: relabelled unitMap' (drop (length cluster) patterns)
  end.

(** The keys of an object of objects, level by level. *)
Definition shape {V : Type} (o : obj (obj V)) : list (string * list string) :=
  (λ entry, (entry.1, Object_keys entry.2)) <$> o.

(** The calls of [addImage] the reports lead to: one per report on a request
    that was made, in the order of the reports, with the pattern of the
    request and the image argument of the report. *)
Definition registrations {image load_error : Type} (patterns : list string)
    (reports : list (nat * option load_error * option image))
  : list (map_call image) :=
  omap (λ r, (λ pattern, AddImage pattern r.2) <$> patterns !! r.1.1) reports.

(** A catalog of four patterns and reports on them that come out of order,
    one of them twice. *)
Definition four_patterns : obj string :=
  [ ("dots", "/d.png"); ("lines", "/l.png"); ("waves", "/w.png");
    ("grid", "/g.png") ].

Definition four_reports : list (nat * option string * option string) :=
  [ (2, None, Some "W"); (0, Some "404", None); (3, None, Some "G");
    (2, Some "late", None); (1, None, Some "L"); (7, None, Some "?") ].

(** ** addCOIs: the whole chain

    The two fetches are taken as having delivered [clusters] and [patterns];
    the engine then makes [reports] on the images requested. The outcome is
    the map, the target, and what the promise of [addCOIs] is fulfilled
    with, [None] while it is pending; an exception thrown in one of the
    callbacks is [Throw]. *)

Record visualization := {
  vis_clusters : list cluster;
  vis_unitMap : UnitMap;
  vis_patternMatch : PatternMatch;
  vis_units : layer;
  vis_chosenPatterns : obj string
}.

Definition addCOIs {engine : Engine} {image load_error : Type}
    (map0 : list (map_call image)) (coiunits : layer) (clusters : list cluster) (patterns : obj string)
    (reports : list (nat * option load_error * option image))
  : result (list (map_call image) * layer * option visualization) :=
  filtered ← filterCOIs clusters;
  unitMap ← createUnitMap filtered;
  a ← allocate unitMap patterns;
  let chosenPatterns := alloc_chosenPatterns a in
  let patternMatch := alloc_patternMatch a in
  let st := run reports (loadPatterns map0 chosenPatterns) in
  match resolvesToArray <$> Promise_allSettled (patternLoadingPromises st) with
  | None => Ok (map st, coiunits, None)
  | Some _ =>
      '(_, coiunits) ← patternStyleExpression coiunits unitMap patternMatch;
      let coiunits := setOpacity 0%float coiunits in
      Ok (map st, coiunits,
          Some {| vis_clusters := clusters;
                  vis_unitMap := unitMap;
                  vis_patternMatch := patternMatch;
                  vis_units := coiunits;
                  vis_chosenPatterns := chosenPatterns |})
  end.

(** The branches of the style expression when the COIs of the unit map, in
    its enumeration order, take the names of [names] in their order: the
    membership test of each COI followed by its name, undefined once the
    names have run out. *)
Definition painted (unitMap : UnitMap) (names : list string) : list expr :=
  concat
    (zip_with
       (λ (triple : string * string * list string) pattern,
          [subexpression triple.2; expr_of_pattern pattern])
       (triples unitMap) (served names (numberOfNames unitMap))).



(** * Properties *)

Ltac by_computation := apply (bool_decide_unpack _); vm_compute; exact I.

(** ** Exceptions and loops *)

Lemma bind_Ok {A B : Type} (a : A) (f : A → result B) : Ok a ≫= f = f a.
Proof. done. Qed.

Lemma for_of_nil {A S : Type} (body : S → A → result S) (s : S) :
  for_of body [] s = Ok s.
Proof. done. Qed.

Lemma for_of_cons {A S : Type} (body : S → A → result S) x l (s : S) :
  for_of body (x :: l) s = body s x ≫= for_of body l.
Proof. done. Qed.

Lemma for_of_app {A S : Type} (body : S → A → result S) l1 l2 (s : S) :
  for_of body (l1 ++ l2) s = for_of body l1 s ≫= for_of body l2.
Proof.
  revert s. induction l1 as [|x l1 IH]; intros s; [done|].
  rewrite <- app_comm_cons, !for_of_cons.
  destruct (body s x) as [s'|e]; [|done]. rewrite !bind_Ok. apply IH.
Qed.

Lemma member_Some {V : Type} (k : string) (o : obj V) (v : V) :
  get k o = Some v → member k o = Ok v.
Proof. unfold member. by intros ->. Qed.

(** ** Objects *)

Section ObjectFacts.
Context {V : Type}.
Implicit Types (o : obj V) (k : string) (v : V).

Lemma get_Some_elem_of k v o : get k o = Some v → (k, v) ∈ o.
Proof.
  induction o as [|[k' v'] o IH]; simpl; [done|].
  case_decide as Hk.
  - intros [= ->]. subst. left.
  - intros H. right. auto.
Qed.

Lemma get_None_not_key k o : get k o = None ↔ k ∉ Object_keys o.
Proof.
  unfold Object_keys.
  induction o as [|[k' v'] o IH]; simpl.
  - split; [intros _; apply not_elem_of_nil | done].
  - rewrite not_elem_of_cons. case_decide as Hk; split.
    + done.
    + intros [Hne _]. by subst.
    + intros H. split; [congruence | by apply IH].
    + intros [_ H]. by apply IH.
Qed.

Lemma get_is_Some_key k o : is_Some (get k o) ↔ k ∈ Object_keys o.
Proof.
  rewrite <- not_eq_None_Some, get_None_not_key.
  destruct (decide (k ∈ Object_keys o)); tauto.
Qed.

Lemma elem_of_get k v o :
  NoDup (Object_keys o) → (k, v) ∈ o → get k o = Some v.
Proof.
  unfold Object_keys.
  induction o as [|[k' v'] o IH]; simpl.
  - intros _ H. by apply elem_of_nil in H.
  - intros [Hk' Hnd]%NoDup_cons [Heq|Hin]%elem_of_cons.
    + injection Heq as -> ->. by rewrite decide_True.
    + rewrite decide_False; [by apply IH|].
      intros ->. apply Hk'. apply list_elem_of_fmap. by exists (k, v).
Qed.

Lemma get_app k o1 o2 :
  get k (o1 ++ o2) = match get k o1 with Some v => Some v | None => get k o2 end.
Proof.
  induction o1 as [|[k' v'] o1 IH]; simpl; [done|]. by case_decide.
Qed.

(** A property inserted anywhere among properties with other keys. *)
Lemma get_insert_middle k k' v o1 o2 :
  get k (o1 ++ o2) = None →
  get k' (o1 ++ (k, v) :: o2) =
    if decide (k = k') then Some v else get k' (o1 ++ o2).
Proof.
  rewrite !get_app. simpl. intros Hk.
  destruct (get k o1) eqn:E1; [done|].
  case_decide as Heq; [subst; by rewrite E1|].
  done.
Qed.

Lemma create_index_split n k v o :
  ∃ o1 o2, o = o1 ++ o2 ∧ create_index n k v o = o1 ++ (k, v) :: o2.
Proof.
  induction o as [|[k' v'] o IH]; simpl.
  - by exists [], [].
  - destruct (array_index k') as [n'|].
    + destruct (n <? n')%N.
      * by exists [], ((k', v') :: o).
      * destruct IH as (o1 & o2 & -> & ->).
        by exists ((k', v') :: o1), o2.
    + by exists [], ((k', v') :: o).
Qed.

Lemma create_split k v o :
  ∃ o1 o2, o = o1 ++ o2 ∧ create k v o = o1 ++ (k, v) :: o2.
Proof.
  unfold create. destruct (array_index k) as [n|].
  - apply create_index_split.
  - exists o, []. by rewrite app_nil_r.
Qed.

Lemma get_overwrite k k' v o :
  is_Some (get k o) →
  get k' (overwrite k v o) = if decide (k = k') then Some v else get k' o.
Proof.
  induction o as [|[k0 v0] o IH]; simpl.
  - by intros [? ?].
  - destruct (decide (k0 = k)) as [->|Hne]; simpl.
    + intros _. by destruct (decide (k = k')).
    + intros H. rewrite IH by done.
      destruct (decide (k0 = k')) as [->|]; [|done].
      by rewrite decide_False.
Qed.

Lemma overwrite_keys k v o : Object_keys (overwrite k v o) = Object_keys o.
Proof.
  unfold Object_keys.
  induction o as [|[k0 v0] o IH]; simpl; [done|].
  case_decide; [done|]. rewrite !fmap_cons. by rewrite IH.
Qed.

(** Reading after [o[k] = v]. *)
Lemma get_set k k' v o :
  get k' (set k v o) = if decide (k = k') then Some v else get k' o.
Proof.
  unfold set. destruct (get k o) as [v0|] eqn:E.
  - apply get_overwrite. by rewrite E.
  - destruct (create_split k v o) as (o1 & o2 & -> & ->).
    by apply get_insert_middle.
Qed.

Lemma get_set_eq k v o : get k (set k v o) = Some v.
Proof. by rewrite get_set, decide_True. Qed.

Lemma get_set_ne k k' v o : k ≠ k' → get k' (set k v o) = get k' o.
Proof. intros. by rewrite get_set, decide_False. Qed.

Lemma set_keys_perm k v o :
  get k o = None → Object_keys (set k v o) ≡ₚ k :: Object_keys o.
Proof.
  intros E. unfold set. rewrite E.
  destruct (create_split k v o) as (o1 & o2 & -> & ->).
  unfold Object_keys. rewrite !fmap_app, fmap_cons. simpl.
  by rewrite Permutation_middle.
Qed.

(** Assignment keeps the keys of an object distinct. *)
Lemma set_NoDup k v o : NoDup (Object_keys o) → NoDup (Object_keys (set k v o)).
Proof.
  intros Hnd. destruct (get k o) as [v0|] eqn:E.
  - unfold set. rewrite E. by rewrite overwrite_keys.
  - rewrite set_keys_perm by done. apply NoDup_cons. split; [|done].
    by apply get_None_not_key.
Qed.
Lemma elem_of_overwrite e k v o : e ∈ overwrite k v o → e = (k, v) ∨ e ∈ o.
Proof.
  induction o as [|[k0 v0] o IH]; simpl; [by right|].
  case_decide as Hk.
  - intros [->|H]%elem_of_cons; [left; by subst|right; by right].
  - intros [->|H]%elem_of_cons; [right; left|].
    destruct (IH H) as [->|H']; [by left|right; by right].
Qed.

(** The properties after [o[k] = v] are the new one and old ones. *)
Lemma elem_of_set e k v o : e ∈ set k v o → e = (k, v) ∨ e ∈ o.
Proof.
  unfold set. destruct (get k o).
  - apply elem_of_overwrite.
  - destruct (create_split k v o) as (o1 & o2 & -> & ->).
    rewrite !elem_of_app, elem_of_cons. tauto.
Qed.
Lemma array_index_pretty k (n : N) : array_index k = Some n → k = pretty n.
Proof.
  unfold array_index. destruct k as [|a k]; [done|].
  destruct (digits_value 0 (String a k)) as [m|]; [|done].
  destruct (String.eqb (pretty m) (String a k)) eqn:E; simpl; [|done].
  apply String.eqb_eq in E. destruct (m <? 4294967295)%N; [|done].
  by intros [= <-].
Qed.

Lemma key_before_index k1 k2 n1 n2 :
  array_index k1 = Some n1 → array_index k2 = Some n2 →
  key_before k1 k2 ↔ (n1 < n2)%N.
Proof. intros H1 H2. unfold key_before. by rewrite H1, H2. Qed.

Lemma create_index_in_order (n : N) k v o :
  array_index k = Some n → k ∉ Object_keys o →
  in_key_order o → in_key_order (create_index n k v o).
Proof.
  unfold in_key_order, Object_keys. intros Hk.
  induction o as [|[k' v'] o IH]; intros Hfresh Hsorted; simpl.
  - repeat constructor.
  - rewrite fmap_cons in Hfresh, Hsorted. simpl in Hfresh, Hsorted.
    apply not_elem_of_cons in Hfresh as [Hne Hfresh].
    apply StronglySorted_inv in Hsorted as [Hsorted Hhead].
    destruct (array_index k') as [n'|] eqn:Ek'.
    + destruct (n <? n')%N eqn:Hlt.
      * apply N.ltb_lt in Hlt. rewrite !fmap_cons. simpl.
        constructor; [by constructor|]. constructor.
        { by apply (key_before_index k k' n n'). }
        eapply Forall_impl; [exact Hhead|]. intros k2.
        unfold key_before. rewrite Hk, Ek'.
        destruct (array_index k2); [lia|done].
      * apply N.ltb_ge in Hlt. rewrite fmap_cons. simpl.
        constructor; [by apply IH|].
        destruct (create_index_split n k v o) as (o1 & o2 & -> & ->).
        rewrite fmap_app, fmap_cons in *. simpl.
        apply Forall_app in Hhead as [H1 H2].
        apply Forall_app. split; [done|]. constructor; [|done].
        apply (key_before_index k' k n' n); [done..|].
        assert (n' ≠ n); [|lia]. intros ->.
        apply Hne. by rewrite (array_index_pretty _ _ Hk),
                              (array_index_pretty _ _ Ek').
    + rewrite !fmap_cons. simpl.
      constructor; [by constructor|]. constructor.
      { unfold key_before. by rewrite Hk, Ek'. }
      eapply Forall_impl; [exact Hhead|]. intros k2.
      unfold key_before. rewrite Hk, Ek'. by destruct (array_index k2).
Qed.

(** Assignment keeps the properties in the order objects list them. *)
Lemma set_in_key_order k v o : in_key_order o → in_key_order (set k v o).
Proof.
  intros Hsorted. unfold set. destruct (get k o) as [v0|] eqn:E.
  - unfold in_key_order. by rewrite overwrite_keys.
  - apply get_None_not_key in E. unfold create.
    destruct (array_index k) as [n|] eqn:Ek.
    + by apply create_index_in_order.
    + unfold in_key_order, Object_keys in *. rewrite fmap_app. simpl.
      induction (o.*1) as [|k' ks IH]; simpl; [repeat constructor|].
      apply StronglySorted_inv in Hsorted as [Hsorted Hhead].
      apply not_elem_of_cons in E as [_ E].
      constructor; [by apply IH|].
      apply Forall_app. split; [done|]. constructor; [|done].
      unfold key_before. rewrite Ek. destruct (array_index k') eqn:Ek'; [done|].
      done.
Qed.

(** A new key that may come last does come last. *)
Lemma create_last k v o :
  in_key_order (o ++ [(k, v)]) → create k v o = o ++ [(k, v)].
Proof.
  unfold create, in_key_order, Object_keys.
  destruct (array_index k) as [n|] eqn:Ek; [|done].
  induction o as [|[k' v'] o IH]; intros Hsorted; simpl; [done|].
  rewrite <- app_comm_cons, fmap_cons in Hsorted. simpl in Hsorted.
  apply StronglySorted_inv in Hsorted as [Hsorted Hhead].
  rewrite IH by done.
  rewrite fmap_app in Hhead. apply Forall_app in Hhead as [_ Hk].
  apply Forall_inv in Hk. unfold key_before in Hk.
  change ((k, v).1) with k in Hk. rewrite Ek in Hk. destruct (array_index k') as [n'|]; [|done].
  assert ((n <? n')%N = false) as -> by (apply N.ltb_ge; lia). done.
Qed.

(** [Object.fromEntries] gives back the entries of an object. *)
Lemma Object_fromEntries_entries o :
  NoDup (Object_keys o) → in_key_order o →
  Object_fromEntries (Object_entries o) = o.
Proof.
  unfold Object_fromEntries, Object_entries.
  induction o as [|[k v] o IH] using rev_ind; intros Hnd Hsorted; [done|].
  rewrite fold_left_app. simpl.
  unfold in_key_order, Object_keys in *.
  rewrite fmap_app in Hnd. apply NoDup_app in Hnd as (Hnd & Hfresh & _).
  rewrite IH.
  - unfold set.
    assert (get k o = None) as ->.
    { apply get_None_not_key. intros Hin. apply (Hfresh k Hin). by left. }
    by apply create_last.
  - done.
  - rewrite fmap_app in Hsorted. by apply StronglySorted_app_1_l in Hsorted.
Qed.
End ObjectFacts.

Example array_index_examples :
  array_index "0" = Some 0%N ∧
  array_index "42" = Some 42%N ∧
  array_index "4294967294" = Some 4294967294%N ∧
  array_index "4294967295" = None ∧
  array_index "042" = None ∧
  array_index "-1" = None ∧
  array_index "1.5" = None ∧
  array_index "unit1" = None.
Proof. vm_compute. repeat split. Qed.

(** Array indices are listed first, ascending, whatever the order in which
    the properties were created. *)
Example set_enumeration_order :
  Object_keys (set "3" 4 (set "b" 3 (set "20" 2 (set "a" 1 []))))
  = ["3"; "20"; "a"; "b"].
Proof. vm_compute. reflexivity. Qed.


(** ** filterCOIs *)

(** The second rule is only reached on a cluster that passed the first, so
    the filter never throws. *)
Lemma filterer_eligible (c : cluster) : filterer c = Ok (eligible c).
Proof.
  unfold filterer, eligible, truthy_plan, truthy_assignment. simpl.
  destruct (cluster_plan c) as [| |q|p]; simpl; [done..| |].
  - by rewrite andb_false_r; destruct q as [[]|n|s]; simpl;
      repeat match goal with |- context [negb ?b] => destruct b; simpl end.
  - by destruct (Boolean _).
Qed.

Lemma filterCOIs_filter (clusters : list cluster) :
  filterCOIs clusters = Ok (List.filter eligible clusters).
Proof.
  unfold filterCOIs.
  induction clusters as [|c clusters IH]; simpl; [done|].
  rewrite filterer_eligible, IH. simpl. by destruct (eligible c).
Qed.

Lemma filter_sublist {A : Type} (f : A → bool) (l : list A) :
  List.filter f l `sublist_of` l.
Proof.
  induction l as [|x l IH]; simpl; [constructor|].
  destruct (f x); by constructor.
Qed.

Example filterCOIs_falsy_values :
  filterCOIs
    [ Scenario.no_plan; Scenario.clusterA; Scenario.null_plan;
      Scenario.numeric_plan;
      Scenario.plan_with Undefined; Scenario.plan_with Null;
      Scenario.plan_with (Primitive (PNum 0));
      Scenario.plan_with (Primitive (PStr EmptyString));
      Scenario.plan_with (Primitive (PBool false));
      Scenario.plan_with (Primitive (PBool true));
      Scenario.clusterB ]
  = Ok [ Scenario.clusterA; Scenario.plan_with (Primitive (PBool true));
         Scenario.clusterB ].
Proof. reflexivity. Qed.

(** C5. The validator returns a subsequence of its input, in which every
    cluster has a truthy [plan] and a truthy [plan.assignment], and which
    holds every input cluster that has both. *)
Theorem filterCOIs_stable_subset (clusters : list cluster) :
  ∃ filtered,
    filterCOIs clusters = Ok filtered ∧
    filtered `sublist_of` clusters ∧
    (∀ c, c ∈ filtered →
       truthy_plan c = true ∧
       ∃ plan, cluster_plan c = Object plan ∧
               Boolean (plan_assignment plan) = true) ∧
    (∀ c, c ∈ clusters →
       truthy_plan c = true → truthy_assignment c = true → c ∈ filtered).
Proof.
  exists (List.filter eligible clusters).
  split; [apply filterCOIs_filter|].
  split; [apply filter_sublist|].
  split.
  - intros c [Hin Hel]%list_elem_of_In%filter_In.
    unfold eligible in Hel. apply andb_true_iff in Hel as [Hp Ha].
    split; [done|].
    unfold truthy_assignment in Ha.
    destruct (cluster_plan c) as [| |q|p]; try done. by exists p.
  - intros c Hin Hp Ha. apply list_elem_of_In, filter_In.
    split; [by apply list_elem_of_In|].
    unfold eligible. by rewrite Hp, Ha.
Qed.


(** ** patternsToCOIs *)

Lemma numberOfNames_pairs (unitMap : UnitMap) :
  numberOfNames unitMap = length (pairs unitMap).
Proof.
  unfold numberOfNames, pairs, Object_values, Object_entries.
  assert (∀ n, fold_left
             (λ numberOfNames (cluster : obj (list string)),
                numberOfNames + length (Object_keys cluster)) (unitMap.*2) n
           = n + length (unitMap ≫= λ entry,
                           (λ coiName, (entry.1, coiName)) <$> Object_keys entry.2))
    as H; [|apply H].
  induction unitMap as [|[cid cluster] um IH]; intros n; csimpl; [lia|].
  rewrite IH. rewrite length_app, length_fmap. simpl. lia.
Qed.

Lemma shift_lookup {A : Type} (a : list A) : shift a = (a !! 0, drop 1 a).
Proof. by destruct a. Qed.

(** The loop over the COI names of one cluster: the names are given the
    next patterns of the queue, one each, and no other cluster is touched. *)
Lemma patternsToCOIs_inner (cid : string) (ks : list string) :
  ∀ (m : PatternMatch) (ps : list string) inner,
    get cid m = Some inner →
    ∃ m' inner',
      for_of
        (λ (st : PatternMatch * list string) coiIdentifier,
           let '(mapping, patterns) := st in
           inner ← member cid mapping;
           let '(pattern, patterns) := shift patterns in
           Ok (set cid (set coiIdentifier pattern inner) mapping, patterns))
        ks (m, ps) = Ok (m', drop (length ks) ps) ∧
      (∀ c, c ≠ cid → get c m' = get c m) ∧
      get cid m' = Some inner' ∧
      (∀ k, k ∉ ks → get k inner' = get k inner) ∧
      (NoDup ks → ∀ i k, ks !! i = Some k → get k inner' = Some (ps !! i)).
Proof.
  induction ks as [|k ks IH]; intros m ps inner Hm.
  - exists m, inner. simpl. rewrite drop_0. repeat split; try done.
  - rewrite for_of_cons, (member_Some _ _ _ Hm), bind_Ok, shift_lookup, bind_Ok.
    destruct (IH (set cid (set k (ps !! 0) inner) m) (drop 1 ps)
                 (set k (ps !! 0) inner)) as (m' & inner' & Hrun & Hoth & Hcid & Hout & Hin).
    { apply get_set_eq. }
    exists m', inner'. rewrite Hrun, drop_drop.
    split; [done|]. split; [|split; [done|split]].
    + intros c Hc. rewrite Hoth by done. by apply get_set_ne.
    + intros k' [Hne Hk']%not_elem_of_cons. rewrite Hout by done.
      by apply get_set_ne.
    + intros [Hk Hnd]%NoDup_cons [|i] k'; simpl.
      * intros [= <-]. rewrite Hout by done. apply get_set_eq.
      * intros Hi. rewrite (Hin Hnd i k' Hi). by rewrite lookup_drop.
Qed.

Lemma served_shift (ps : list string) (n a : nat) :
  (λ i, ps !! i) <$> seq a n = served (drop a ps) n.
Proof.
  unfold served. revert a. 
  assert (∀ b a, (λ i, ps !! i) <$> seq (a + b) n
                 = (λ i, drop a ps !! i) <$> seq b n) as H.
  { induction n as [|n IH]; intros b a; [done|]. simpl.
    rewrite lookup_drop. f_equal. rewrite <- Nat.add_succ_r. apply IH. }
  intros a. by rewrite <- H, Nat.add_0_r.
Qed.

Lemma served_app (ps : list string) (n1 n2 : nat) :
  served ps (n1 + n2) = served ps n1 ++ served (drop n1 ps) n2.
Proof.
  unfold served at 1. rewrite seq_app, fmap_app, !served_shift.
  by rewrite drop_0.
Qed.

Lemma served_enough (ps : list string) (n : nat) :
  n ≤ length ps → served ps n = Some <$> take n ps.
Proof.
  revert ps. induction n as [|n IH]; intros ps Hn.
  - by rewrite take_0.
  - destruct ps as [|p ps]; simpl in Hn; [lia|].
    change (S n) with (1 + n). rewrite served_app. simpl.
    rewrite drop_0. rewrite IH by lia. done.
Qed.

Lemma served_short (ps : list string) (n : nat) :
  length ps ≤ n → served ps n = (Some <$> ps) ++ replicate (n - length ps) None.
Proof.
  intros Hn. replace n with (length ps + (n - length ps)) at 1 by lia.
  rewrite served_app, served_enough, firstn_all by done. f_equal.
  rewrite drop_all. unfold served.
  generalize (n - length ps) as c. generalize 0 as a.
  intros a c. revert a. induction c as [|c IH]; intros a; [done|].
  simpl. f_equal. apply IH.
Qed.

Lemma fmap_served {A : Type} (f : A → option string) (l : list A) :
  ∀ ps, (∀ i x, l !! i = Some x → f x = ps !! i) →
        f <$> l = served ps (length l).
Proof.
  induction l as [|x l IH]; intros ps H; [done|].
  change (length (x :: l)) with (1 + length l).
  rewrite served_app, fmap_cons. simpl. f_equal.
  - apply (H 0 x eq_refl).
  - apply IH. intros i y Hi. rewrite lookup_drop. apply (H (S i) y Hi).
Qed.

Lemma pairs_cons (cid : string) (cluster : obj (list string)) (um : UnitMap) :
  pairs ((cid, cluster) :: um)
  = ((λ coiName, (cid, coiName)) <$> Object_keys cluster) ++ pairs um.
Proof. done. Qed.

(** The whole allocation: it never throws, it takes as many names off the
    queue as there are pairs, and the pairs, in unit-map order, hold the
    queue positions 0, 1, 2, ... *)
Lemma patternsToCOIs_served (unitMap : UnitMap) (patterns : list string) :
  is_unitMap unitMap →
  ∃ mapping,
    patternsToCOIs unitMap patterns
      = Ok (mapping, drop (length (pairs unitMap)) patterns) ∧
    assigned mapping <$> pairs unitMap
      = served patterns (length (pairs unitMap)) ∧
    (∀ c, c ∈ Object_keys unitMap → is_Some (get c mapping)).
Proof.
  unfold patternsToCOIs, Object_entries.
  match goal with |- context [for_of ?body _ _] => set (outer := body) end.
  generalize (@nil (string * obj (option string))). intros m0 Hum. revert m0 patterns.
  enough (∀ m ps, ∃ m',
            for_of outer unitMap (m, ps)
              = Ok (m', drop (length (pairs unitMap)) ps) ∧
            (∀ c, c ∉ Object_keys unitMap → get c m' = get c m) ∧
            assigned m' <$> pairs unitMap = served ps (length (pairs unitMap)) ∧
            (∀ c, c ∈ Object_keys unitMap → is_Some (get c m'))) as H.
  { intros m ps. destruct (H m ps) as (m' & ? & ? & ? & ?). by exists m'. }
  destruct Hum as [Hnd Hall]. unfold is_object in Hnd.
  induction unitMap as [|[cid cluster] um IH]; intros m ps.
  - exists m. simpl. rewrite drop_0. repeat split; try done.
    intros c Hc. by apply elem_of_nil in Hc.
  - unfold Object_keys in Hnd. rewrite fmap_cons in Hnd. simpl in Hnd.
    apply NoDup_cons in Hnd as [Hcid Hnd].
    apply Forall_cons in Hall as [Hcl Hall]. simpl in Hcl.
    rewrite for_of_cons. unfold outer at 2. cbv beta iota.
    destruct (patternsToCOIs_inner cid (Object_keys cluster)
                (set cid [] m) ps [] (get_set_eq _ _ _))
      as (m1 & inner' & Hrun & Hoth & Hm1 & _ & Hin).
    match goal with
    | |- context [?run ≫= for_of outer um] =>
        replace run with (Ok (m1, drop (length (Object_keys cluster)) ps))
          by (symmetry; exact Hrun)
    end.
    rewrite bind_Ok.
    destruct (IH Hnd Hall m1 (drop (length (Object_keys cluster)) ps))
      as (m' & Hrun' & Hoth' & Hass & Hdom).
    exists m'. rewrite Hrun', drop_drop, pairs_cons, length_app, length_fmap.
    split; [done|].
    assert (get cid m' = Some inner') as Hcid'.
    { by rewrite Hoth'. }
    split; [|split].
    + intros c Hc. unfold Object_keys in Hc. rewrite fmap_cons in Hc.
      apply not_elem_of_cons in Hc as [Hne Hc]. simpl in Hne.
      rewrite Hoth' by done. rewrite Hoth by done. by apply get_set_ne.
    + rewrite fmap_app, served_app, Hass. f_equal.
      rewrite <- (length_fmap (λ coiName, (cid, coiName))).
      apply fmap_served. intros i [c k] Hi.
      apply list_lookup_fmap_Some in Hi as (k' & [= <- <-] & Hk).
      unfold assigned. simpl. rewrite Hcid'. simpl.
      by rewrite (Hin Hcl i _ Hk).
    + intros c Hc. unfold Object_keys in Hc. rewrite fmap_cons in Hc.
      apply elem_of_cons in Hc as [->|Hc]; simpl; [by rewrite Hcid'|].
      by apply Hdom.
Qed.

Lemma allocate_served (unitMap : UnitMap) (patterns : obj string) :
  is_unitMap unitMap →
  ∃ a,
    allocate unitMap patterns = Ok a ∧
    alloc_names a = take (numberOfNames unitMap) (Object_keys patterns) ∧
    patternsToCOIs unitMap (alloc_names a)
      = Ok (alloc_patternMatch a,
            drop (numberOfNames unitMap) (alloc_names a)) ∧
    assigned (alloc_patternMatch a) <$> pairs unitMap
      = served (alloc_names a) (numberOfNames unitMap).
Proof.
  intros Hum. unfold allocate, slice0.
  destruct (patternsToCOIs_served unitMap
              (take (numberOfNames unitMap) (Object_keys patterns)) Hum)
    as (m & Hrun & Hass & _).
  rewrite <- numberOfNames_pairs in Hrun, Hass.
  rewrite Hrun, bind_Ok. eexists. split; [done|]. simpl. by rewrite Hrun.
Qed.

(** C2. With at least as many catalog names as (cluster, COI) pairs, the
    pairs, in unit-map order, are given the first N catalog names, in catalog
    order, one each: every pair has a name, no two pairs share one, and the
    queue of names is used up. *)
Theorem allocate_distinct_first_names
    (unitMap : UnitMap) (patterns : obj string) :
  is_unitMap unitMap →
  is_object patterns →
  numberOfNames unitMap ≤ length (Object_keys patterns) →
  ∃ a,
    allocate unitMap patterns = Ok a ∧
    alloc_names a = take (numberOfNames unitMap) (Object_keys patterns) ∧
    patternsToCOIs unitMap (alloc_names a) = Ok (alloc_patternMatch a, []) ∧
    length (pairs unitMap) = numberOfNames unitMap ∧
    assigned (alloc_patternMatch a) <$> pairs unitMap
      = Some <$> take (numberOfNames unitMap) (Object_keys patterns) ∧
    NoDup (assigned (alloc_patternMatch a) <$> pairs unitMap).
Proof.
  intros Hum Hpat Hle.
  destruct (allocate_served unitMap patterns Hum) as (a & Ha & Hn & Hrun & Hass).
  exists a. split; [done|]. split; [done|].
  assert (length (alloc_names a) = numberOfNames unitMap) as Hlen.
  { rewrite Hn, length_take. lia. }
  split.
  { rewrite Hrun. do 2 f_equal. apply drop_ge. lia. }
  split; [by rewrite numberOfNames_pairs|].
  assert (assigned (alloc_patternMatch a) <$> pairs unitMap
          = Some <$> take (numberOfNames unitMap) (Object_keys patterns)) as ->.
  { rewrite Hass, served_enough by lia. rewrite Hn. by rewrite take_take, Nat.min_id. }
  split; [done|].
  apply (NoDup_fmap_2 _). eapply sublist_NoDup; [exact Hpat | apply sublist_take].
Qed.

(** C6. With fewer catalog names than pairs the allocation still returns:
    the first M pairs, in unit-map order, are given the M catalog names, the
    remaining pairs are left with undefined, and no name is given twice. *)
Theorem allocate_exhausted_catalog
    (unitMap : UnitMap) (patterns : obj string) :
  is_unitMap unitMap →
  is_object patterns →
  length (Object_keys patterns) < numberOfNames unitMap →
  ∃ a,
    allocate unitMap patterns = Ok a ∧
    alloc_names a = Object_keys patterns ∧
    length (pairs unitMap) = numberOfNames unitMap ∧
    assigned (alloc_patternMatch a) <$> pairs unitMap
      = (Some <$> Object_keys patterns) ++
        replicate (numberOfNames unitMap - length (Object_keys patterns)) None ∧
    no_reuse (assigned (alloc_patternMatch a) <$> pairs unitMap).
Proof.
  intros Hum Hpat Hlt.
  destruct (allocate_served unitMap patterns Hum) as (a & Ha & Hn & Hrun & Hass).
  rewrite take_ge in Hn by lia.
  exists a. split; [done|]. split; [done|].
  split; [by rewrite numberOfNames_pairs|].
  assert (assigned (alloc_patternMatch a) <$> pairs unitMap
          = (Some <$> Object_keys patterns) ++
            replicate (numberOfNames unitMap - length (Object_keys patterns)) None)
    as ->.
  { rewrite Hass, Hn. apply served_short. lia. }
  split; [done|].
  intros i j name Hi Hj.
  assert (∀ i, ((Some <$> Object_keys patterns) ++
                 replicate (numberOfNames unitMap - length (Object_keys patterns)) None)
                 !! i = Some (Some name) → Object_keys patterns !! i = Some name) as H.
  { intros n Hn'. apply lookup_app_Some in Hn' as [Hn'|[_ Hn']].
    - apply list_lookup_fmap_Some in Hn' as (x & [= ->] & Hx). done.
    - by apply lookup_replicate in Hn' as [? _]. }
  eapply NoDup_lookup; [exact Hpat | by apply H | by apply H].
Qed.

Lemma scenario_is_unitMap : is_unitMap Scenario.unitMap.
Proof.
  split; [unfold is_object; by_computation|].
  repeat constructor; unfold is_object; by_computation.
Qed.

Example scenario_createUnitMap :
  createUnitMap (engine:=V8) Scenario.clusters = Ok Scenario.unitMap.
Proof. vm_compute. reflexivity. Qed.

Example scenario_allocate :
  alloc_patternMatch <$> allocate Scenario.unitMap Scenario.catalog
  = Ok Scenario.patternMatch.
Proof. vm_compute. reflexivity. Qed.

Example scenario_allocate_short :
  alloc_patternMatch <$> allocate Scenario.unitMap Scenario.short_catalog
  = Ok [ ("A", [ ("Alpha", Some "p1"); ("Beta", Some "p2") ]);
         ("B", [ ("Gamma", None) ]) ].
Proof. vm_compute. reflexivity. Qed.

Lemma allocate_distinct_first_names_witness :
  ∃ a,
    allocate Scenario.unitMap Scenario.catalog = Ok a ∧
    alloc_names a = take 3 (Object_keys Scenario.catalog) ∧
    patternsToCOIs Scenario.unitMap (alloc_names a)
      = Ok (alloc_patternMatch a, []) ∧
    length (pairs Scenario.unitMap) = 3 ∧
    assigned (alloc_patternMatch a) <$> pairs Scenario.unitMap
      = Some <$> take 3 (Object_keys Scenario.catalog) ∧
    NoDup (assigned (alloc_patternMatch a) <$> pairs Scenario.unitMap).
Proof.
  apply (allocate_distinct_first_names Scenario.unitMap Scenario.catalog).
  - exact scenario_is_unitMap.
  - unfold is_object. by_computation.
  - vm_compute. lia.
Defined.

Lemma allocate_exhausted_catalog_witness :
  ∃ a,
    allocate Scenario.unitMap Scenario.short_catalog = Ok a ∧
    alloc_names a = Object_keys Scenario.short_catalog ∧
    length (pairs Scenario.unitMap) = 3 ∧
    assigned (alloc_patternMatch a) <$> pairs Scenario.unitMap
      = (Some <$> Object_keys Scenario.short_catalog) ++ replicate (3 - 2) None ∧
    no_reuse (assigned (alloc_patternMatch a) <$> pairs Scenario.unitMap).
Proof.
  apply (allocate_exhausted_catalog Scenario.unitMap Scenario.short_catalog).
  - exact scenario_is_unitMap.
  - unfold is_object. by_computation.
  - vm_compute. lia.
Defined.

(** ** createUnitMap *)

Section Reading.
Context {V : Type}.
Implicit Types (o : obj V) (k : string) (v : V).

Lemma read_Own k v o : get k o = Some v → read k o = Own v.
Proof. unfold read. by intros ->. Qed.

Lemma read_None k o :
  get k o = None →
  read k o = if decide (k ∈ Object_prototype) then Inherited k else Nothing.
Proof. unfold read. by intros ->. Qed.

Lemma assign_set k v o : k ≠ "__proto__" → assign k v o = set k v o.
Proof.
  intros Hk. unfold assign. destruct (get k o); [done|].
  by rewrite decide_False.
Qed.

(** Reading an own property after [o[k] = v], on an object without a
    property "__proto__" of its own. *)
Lemma get_assign k k' v o :
  get "__proto__" o = None →
  get k' (assign k v o)
  = if decide (k = k' ∧ k ≠ "__proto__") then Some v else get k' o.
Proof.
  intros Ho. unfold assign. destruct (get k o) as [v0|] eqn:E.
  - rewrite get_set. assert (k ≠ "__proto__") as Hk by congruence.
    destruct (decide (k = k')) as [->|Hne].
    + by rewrite decide_True.
    + rewrite decide_False; [done|]. by intros [? _].
  - destruct (decide (k = "__proto__")) as [->|Hk].
    + rewrite decide_False; [done|]. by intros [_ ?].
    + rewrite get_set. destruct (decide (k = k')) as [->|Hne].
      * by rewrite decide_True.
      * rewrite decide_False; [done|]. by intros [? _].
Qed.

Lemma assign_NoDup k v o :
  NoDup (Object_keys o) → NoDup (Object_keys (assign k v o)).
Proof.
  intros Hnd. unfold assign.
  destruct (get k o); [by apply set_NoDup|].
  case_decide; [done | by apply set_NoDup].
Qed.

Lemma assign_in_key_order k v o :
  in_key_order o → in_key_order (assign k v o).
Proof.
  intros Hnd. unfold assign.
  destruct (get k o); [by apply set_in_key_order|].
  case_decide; [done | by apply set_in_key_order].
Qed.

Lemma elem_of_assign e k v o : e ∈ assign k v o → e = (k, v) ∨ e ∈ o.
Proof.
  unfold assign. destruct (get k o); [apply elem_of_set|].
  case_decide; [by right | apply elem_of_set].
Qed.

Lemma elem_of_keys_set k k' v o :
  k' ∈ Object_keys (set k v o) ↔ k' = k ∨ k' ∈ Object_keys o.
Proof.
  rewrite <- !get_is_Some_key, get_set.
  destruct (decide (k = k')) as [->|Hk].
  - split; [by left | by eexists].
  - split; [by right|]. by intros [->|H].
Qed.
End Reading.

(** *** Identifiers, labels and buckets *)

Lemma property_key_label (id : option ident) : property_key id = label id.
Proof. by destruct id as [[n|s]|]. Qed.

Lemma ToPropertyKey_label (coiid : ident) :
  ToPropertyKey coiid = label (Some coiid).
Proof. by destruct coiid. Qed.

Lemma undefined_not_inherited : "undefined" ∉ Object_prototype.
Proof. by_computation. Qed.

Lemma proto_inherited : "__proto__" ∈ Object_prototype.
Proof. by_computation. Qed.

Lemma inherited_text_not_inherited {engine : Engine} (name : string) :
  inherited_text name ∉ Object_prototype.
Proof.
  unfold inherited_text. case_decide as Hname; [by_computation|].
  destruct (NativeFunction name) as [rest ->]. unfold Object_prototype.
  intros H. simpl in H.
  repeat (apply elem_of_cons in H as [H|H]; [discriminate H|]).
  by apply elem_of_nil in H.
Qed.

Lemma as_array_mentioned (c : coiids) : as_array c = mentioned c.
Proof. by destruct c. Qed.

Lemma naming_part_cons (p : part) (parts : list part) (coiid : ident) :
  naming_part (p :: parts) coiid
  = match naming_part parts coiid with
    | Some later => Some later
    | None =>
        if decide (label (part_id p) = label (Some coiid) ∧
                   label (part_id p) ≠ "__proto__")
        then Some p else None
    end.
Proof. done. Qed.

Lemma naming_part_elem (parts : list part) (coiid : ident) (p : part) :
  naming_part parts coiid = Some p →
  p ∈ parts ∧ label (part_id p) = label (Some coiid).
Proof.
  induction parts as [|q parts IH]; [done|]. rewrite naming_part_cons.
  destruct (naming_part parts coiid) as [later|].
  - intros [= <-]. destruct IH as [Hin Hl]; [done|]. split; [by right|done].
  - case_decide as Hq; [|done]. intros [= <-]. split; [left | apply Hq].
Qed.

Lemma naming_part_None (parts : list part) (coiid : ident) :
  Forall (λ part, label (part_id part) ≠ label (Some coiid)) parts →
  naming_part parts coiid = None.
Proof.
  induction 1 as [|p parts Hp _ IH]; [done|]. rewrite naming_part_cons.
  rewrite IH. rewrite decide_False; [done|]. by intros [? _].
Qed.

Lemma identifiers_from (parts : list part) (coiid : ident) :
  ∀ o : obj (option string),
    get "__proto__" o = None →
    get (ToPropertyKey coiid)
      (fold_left
         (λ identifiers part,
            assign (property_key (part_id part)) (part_name part) identifiers)
         parts o)
    = match naming_part parts coiid with
      | Some part => Some (part_name part)
      | None => get (ToPropertyKey coiid) o
      end.
Proof.
  induction parts as [|part parts IH]; intros o Ho; [done|].
  rewrite naming_part_cons. cbn [fold_left]. rewrite IH.
  - destruct (naming_part parts coiid); [done|].
    rewrite get_assign by done.
    rewrite property_key_label, ToPropertyKey_label. by case_decide.
  - rewrite get_assign by done. rewrite decide_False; [done|]. by intros [-> ?].
Qed.

(** The table [identifiers] resolves an identifier to the name of the last
    part that has it; an identifier no part has is read from what objects
    inherit. *)
Lemma read_identifiers_of (parts : list part) (coiid : ident) :
  read (ToPropertyKey coiid) (identifiers_of parts)
  = match naming_part parts coiid with
    | Some part => Own (part_name part)
    | None =>
        if decide (label (Some coiid) ∈ Object_prototype)
        then Inherited (label (Some coiid)) else Nothing
    end.
Proof.
  unfold read, identifiers_of. rewrite identifiers_from by done.
  destruct (naming_part parts coiid); [done|]. simpl.
  by rewrite ToPropertyKey_label.
Qed.

Lemma key_of_name_bucket {engine : Engine} (parts : list part)
    (coiid : ident) :
  key_of_name (read (ToPropertyKey coiid) (identifiers_of parts))
  = bucket parts coiid.
Proof.
  rewrite read_identifiers_of. unfold bucket.
  destruct (naming_part parts coiid) as [part|].
  - simpl. by destruct (part_name part).
  - by case_decide.
Qed.

(** Only a COI name can be a bucket that objects inherit. *)
Lemma bucket_inherited {engine : Engine} (parts : list part) (coiid : ident) :
  bucket parts coiid ∈ Object_prototype ↔
  default "undefined" (resolved_name parts coiid) ∈ Object_prototype.
Proof.
  unfold bucket, resolved_name.
  destruct (naming_part parts coiid) as [part|]; simpl; [done|].
  split; intros H.
  - case_decide; [by apply inherited_text_not_inherited in H|].
    by apply undefined_not_inherited in H.
  - by apply undefined_not_inherited in H.
Qed.

(** *** The loops that fill a cluster map *)

(** A loop that throws on the first element that is not good, and otherwise
    takes a step, is a fold over a list of good elements. *)
Lemma for_of_fold {A S : Type} (body : S → A → result S) (good : A → bool)
    (step : S → A → S) (I : S → Prop) :
  (∀ s x, I s →
     body s x = if good x then Ok (step s x) else Throw TypeError) →
  (∀ s x, I s → good x = true → I (step s x)) →
  ∀ l s, I s →
    for_of body l s
    = if forallb good l then Ok (fold_left step l s) else Throw TypeError.
Proof.
  intros Hbody Hstep. induction l as [|x l IH]; intros s Hs; [done|].
  rewrite for_of_cons, Hbody by done. simpl.
  destruct (good x) eqn:Hx; [|done].
  rewrite bind_Ok. apply IH. by apply Hstep.
Qed.

Lemma fold_left_invariant {A S : Type} (step : S → A → S) (good : A → bool)
    (I : S → Prop) :
  (∀ s x, I s → good x = true → I (step s x)) →
  ∀ l s, I s → forallb good l = true → I (fold_left step l s).
Proof.
  intros Hstep. induction l as [|x l IH]; intros s Hs Hl; [done|].
  simpl in *. apply andb_true_iff in Hl as [Hx Hl].
  apply IH; [|done]. by apply Hstep.
Qed.

Lemma extend_app (bucket : option (list string)) (us1 us2 : list string) :
  extend (extend bucket us1) us2 = extend bucket (us1 ++ us2).
Proof.
  destruct bucket as [us0|]; simpl; [by rewrite app_assoc|].
  destruct us1 as [|u us1]; simpl; [done|]. done.
Qed.

Lemma extend_nil (bucket : option (list string)) : extend bucket [] = bucket.
Proof. destruct bucket; simpl; by rewrite ?app_nil_r. Qed.

Section ClusterMap.
Context {engine : Engine}.
Implicit Types (clusterMap : obj (list string)) (parts : list part).

Lemma set_no_inherited_key (k : string) (units : list string) clusterMap :
  k ∉ Object_prototype → no_inherited_key clusterMap →
  no_inherited_key (set k units clusterMap).
Proof.
  unfold no_inherited_key. rewrite !Forall_forall. intros Hk H k'.
  rewrite elem_of_keys_set. intros [->|Hk']; [done | by apply H].
Qed.

(** One round of the loop over [coiids]. *)
Lemma add_unit_collect parts unit clusterMap coiid :
  no_inherited_key clusterMap →
  add_unit (identifiers_of parts) unit clusterMap coiid
  = if bool_decide (bucket parts coiid ∉ Object_prototype)
    then Ok (collect parts unit clusterMap coiid) else Throw TypeError.
Proof.
  intros Hcm. unfold add_unit, collect. cbv zeta. rewrite key_of_name_bucket.
  set (k := bucket parts coiid). unfold read.
  destruct (get k clusterMap) as [units|] eqn:E.
  - rewrite bool_decide_eq_true_2; [done|].
    apply (proj1 (Forall_forall _ _) Hcm), get_is_Some_key. by rewrite E.
  - destruct (decide (k ∈ Object_prototype)) as [Hk|Hk].
    + by rewrite bool_decide_eq_false_2 by tauto.
    + rewrite bool_decide_eq_true_2 by done. rewrite assign_set; [done|].
      intros Heq. apply Hk. rewrite Heq. apply proto_inherited.
Qed.

Lemma get_collect parts unit clusterMap coiid name :
  get name (collect parts unit clusterMap coiid)
  = extend (get name clusterMap)
      (if decide (bucket parts coiid = name) then [unit] else []).
Proof.
  unfold collect. rewrite get_set.
  destruct (decide (bucket parts coiid = name)) as [<-|Hne].
  - by destruct (get (bucket parts coiid) clusterMap).
  - by rewrite extend_nil.
Qed.

Lemma get_collects parts unit coiids name :
  ∀ clusterMap,
    get name (fold_left (collect parts unit) coiids clusterMap)
    = extend (get name clusterMap)
        (coiid ← coiids;
         if decide (bucket parts coiid = name) then [unit] else []).
Proof.
  induction coiids as [|coiid coiids IH]; intros clusterMap; csimpl.
  - by rewrite extend_nil.
  - by rewrite IH, get_collect, extend_app.
Qed.

Lemma get_collect_entries parts entries name :
  ∀ clusterMap,
    get name (fold_left (collect_entry parts) entries clusterMap)
    = extend (get name clusterMap) (units_under parts entries name).
Proof.
  unfold units_under.
  induction entries as [|[unit cs] entries IH]; intros clusterMap; csimpl.
  - by rewrite extend_nil.
  - rewrite IH. unfold collect_entry at 1. simpl.
    by rewrite get_collects, extend_app.
Qed.

Lemma collect_neat parts unit clusterMap coiid :
  neat clusterMap →
  bool_decide (bucket parts coiid ∉ Object_prototype) = true →
  neat (collect parts unit clusterMap coiid).
Proof.
  intros (Hk & Hobj & Hord) Hb%bool_decide_eq_true_1. unfold collect.
  split; [by apply set_no_inherited_key|].
  split; [by apply set_NoDup | by apply set_in_key_order].
Qed.

(** The loop over the identifiers of one unit. *)
Lemma add_units_collect parts (entry : string * coiids) clusterMap :
  neat clusterMap →
  for_of (add_unit (identifiers_of parts) entry.1) (as_array entry.2)
    clusterMap
  = if collects parts entry then Ok (collect_entry parts clusterMap entry)
    else Throw TypeError.
Proof.
  intros Hcm. rewrite as_array_mentioned.
  apply (for_of_fold _ _ (collect parts entry.1) neat); [| |done].
  - intros cm coiid [Hk _]. by apply add_unit_collect.
  - intros cm coiid. apply collect_neat.
Qed.

Lemma collect_entry_neat parts (entry : string * coiids) clusterMap :
  neat clusterMap → collects parts entry = true →
  neat (collect_entry parts clusterMap entry).
Proof.
  intros Hcm Hentry.
  apply (fold_left_invariant _ _ neat (λ cm coiid, collect_neat parts _ cm coiid))
    ; done.
Qed.

(** The loop over the entries of the assignment. *)
Lemma clusterMap_of_collect parts (entries : list (string * coiids)) :
  clusterMap_of (identifiers_of parts) entries
  = if forallb (collects parts) entries
    then Ok (fold_left (collect_entry parts) entries [])
    else Throw TypeError.
Proof.
  unfold clusterMap_of.
  apply (for_of_fold _ _ (collect_entry parts) neat).
  - intros cm [unit cs] Hcm. by apply (add_units_collect parts (unit, cs)).
  - intros cm entry. apply collect_entry_neat.
  - split; [constructor|]. split; constructor.
Qed.

Lemma collect_entries_neat parts (entries : list (string * coiids)) :
  forallb (collects parts) entries = true →
  neat (fold_left (collect_entry parts) entries []).
Proof.
  apply (fold_left_invariant _ _ neat
           (λ cm entry, collect_entry_neat parts entry cm)).
  split; [constructor|]. split; constructor.
Qed.
End ClusterMap.

(** *** One cluster *)

Section Clusters.
Context {engine : Engine}.

Lemma forallb_bind {A B : Type} (f : B → bool) (g : A → list B) (l : list A) :
  forallb f (l ≫= g) = forallb (λ x, forallb f (g x)) l.
Proof.
  induction l as [|x l IH]; [done|]. csimpl. by rewrite forallb_app, IH.
Qed.

Lemma forallb_ext {A : Type} (f g : A → bool) (l : list A) :
  (∀ x, f x = g x) → forallb f l = forallb g l.
Proof.
  intros Hfg. induction l as [|x l IH]; [done|]. simpl. by rewrite Hfg, IH.
Qed.

Lemma characters_mentioned {A : Type} (l : list A) (f : A → ident) :
  ∀ g : nat → string,
    imap (λ i c, (g i, One (f c))) l ≫= (λ entry, mentioned entry.2) = f <$> l.
Proof.
  induction l as [|c l IH]; intros g; [done|].
  csimpl. f_equal. apply (IH (g ∘ S)).
Qed.

(** The identifiers that the loop over the entries meets. *)
Lemma assignment_entries_used (v : field (obj coiids))
    (entries : list (string * coiids)) :
  assignment_entries v = Ok entries →
  entries ≫= (λ entry, mentioned entry.2) = identifiers_used v.
Proof.
  destruct v as [| |[b|n|s]|assignment]; simpl; try done.
  - by intros [= <-].
  - by intros [= <-].
  - intros [= <-].
    apply (characters_mentioned _ (λ c, Str (String c EmptyString))).
  - by intros [= <-].
Qed.

Lemma collects_resolved (parts : list part) (v : field (obj coiids))
    (entries : list (string * coiids)) :
  assignment_entries v = Ok entries →
  forallb (collects parts) entries
  = forallb
      (λ coiid,
         bool_decide
           (default "undefined" (resolved_name parts coiid) ∉ Object_prototype))
      (identifiers_used v).
Proof.
  intros Hentries. rewrite <- (assignment_entries_used v entries Hentries).
  rewrite forallb_bind. unfold collects.
  apply forallb_ext. intros entry. apply forallb_ext. intros coiid.
  apply bool_decide_ext. by rewrite bucket_inherited.
Qed.

(** Parts without names, as the characters of a string are, give no bucket
    that is inherited. *)
Lemma nameless_collects (parts : list part)
    (entries : list (string * coiids)) :
  Forall (λ p, part_name p = None) parts →
  forallb (collects parts) entries = true.
Proof.
  intros Hparts. apply forallb_forall. intros entry _.
  apply forallb_forall. intros coiid _. apply bool_decide_eq_true_2.
  rewrite bucket_inherited. unfold resolved_name.
  destruct (naming_part parts coiid) as [p|] eqn:E; simpl;
    [|apply undefined_not_inherited].
  apply naming_part_elem in E as [Hin _].
  rewrite (proj1 (Forall_forall _ _) Hparts p Hin).
  apply undefined_not_inherited.
Qed.

Lemma characters_nameless (s : string) :
  Forall (λ p, part_name p = None)
    ((λ _, {| part_id := None; part_name := None |})
       <$> String.list_ascii_of_string s).
Proof. apply Forall_fmap, Forall_forall. done. Qed.

(** What the body of the loop of [createUnitMap] computes before it files
    the cluster. *)
Lemma cluster_map_files (c : cluster) :
  (plan ← plan_of (cluster_plan c);
   parts ← parts_of (plan_parts plan);
   entries ← assignment_entries (plan_assignment plan);
   clusterMap_of (identifiers_of parts) entries)
  = if files c then Ok (cluster_map c) else Throw TypeError.
Proof.
  unfold cluster_map, files.
  destruct (cluster_plan c) as [| |q|plan]; csimpl; [done..|].
  destruct (plan_parts plan) as [| |[b|n|s]|parts]; csimpl;
    try by destruct (plan_assignment plan).
  - destruct (assignment_entries (plan_assignment plan)) as [entries|e] eqn:E;
      csimpl.
    + rewrite clusterMap_of_collect, nameless_collects
        by apply characters_nameless.
      by destruct (plan_assignment plan).
    + by destruct (plan_assignment plan) as [| |[b|n|s']|a], e.
  - destruct (assignment_entries (plan_assignment plan)) as [entries|e] eqn:E;
      csimpl.
    + rewrite clusterMap_of_collect.
      rewrite (collects_resolved parts _ entries E).
      destruct (plan_assignment plan) as [| |q|a]; [done..| |];
        by destruct (forallb _ _).
    + by destruct (plan_assignment plan) as [| |[b|n|s']|a], e.
Qed.

(** One round of the loop of [createUnitMap]. *)
Lemma createUnitMap_round (c : cluster) (unitMap : UnitMap) :
  (plan ← plan_of (cluster_plan c);
   let clusterIdentifier := plan_id plan in
   parts ← parts_of (plan_parts plan);
   let identifiers := identifiers_of parts in
   entries ← assignment_entries (plan_assignment plan);
   clusterMap ← clusterMap_of identifiers entries;
   Ok (assign (property_key clusterIdentifier) clusterMap unitMap))
  = if files c then Ok (filed unitMap c) else Throw TypeError.
Proof.
  pose proof (cluster_map_files c) as Hrun. unfold filed, cluster_key.
  destruct (cluster_plan c) as [| |q|plan] eqn:Ec; csimpl in *;
    [by destruct (files c)..|].
  cbv zeta.
  destruct (parts_of (plan_parts plan)) as [parts|e]; csimpl in *;
    [|by destruct (files c), e].
  destruct (assignment_entries (plan_assignment plan)) as [entries|e];
    csimpl in *; [|by destruct (files c), e].
  rewrite Hrun. destruct (files c); [|done].
  by rewrite bind_Ok, property_key_label.
Qed.

(** [createUnitMap] files the clusters one after the other, and throws when
    it comes to one that cannot be filed. *)
Lemma createUnitMap_fold (clusters : list cluster) :
  createUnitMap clusters
  = if forallb files clusters then Ok (fold_left filed clusters [])
    else Throw TypeError.
Proof.
  unfold createUnitMap.
  apply (for_of_fold _ files filed (λ _, True)); [|done..].
  intros unitMap c _. apply createUnitMap_round.
Qed.
End Clusters.

(** *** The unit map *)

Section UnitMaps.
Context {engine : Engine}.

(** The cluster map of a cluster that can be filed is what the entries of
    its assignment collect. *)
Lemma cluster_map_collected (c : cluster) :
  files c = true →
  ∃ plan parts entries,
    cluster_plan c = Object plan ∧
    parts_of (plan_parts plan) = Ok parts ∧
    assignment_entries (plan_assignment plan) = Ok entries ∧
    forallb (collects parts) entries = true ∧
    cluster_map c = fold_left (collect_entry parts) entries [].
Proof.
  intros Hfiles. pose proof (cluster_map_files c) as Hrun.
  rewrite Hfiles in Hrun. unfold cluster_map.
  destruct (cluster_plan c) as [| |q|plan]; csimpl in *; [done..|].
  exists plan.
  destruct (parts_of (plan_parts plan)) as [parts|e]; csimpl in *; [|done].
  exists parts.
  destruct (assignment_entries (plan_assignment plan)) as [entries|e];
    csimpl in *; [|done].
  exists entries. rewrite clusterMap_of_collect in *.
  destruct (forallb (collects parts) entries); [|done]. done.
Qed.

Lemma cluster_map_neat (c : cluster) : files c = true → neat (cluster_map c).
Proof.
  intros (plan & parts & entries & _ & _ & _ & Hall & ->)%cluster_map_collected.
  by apply collect_entries_neat.
Qed.

(** The bucket of a name holds the units of the references to the name, in
    the order of the assignment, and there is no bucket without a unit. *)
Lemma get_cluster_map (c : cluster) (plan : plan) (parts : list part)
    (assignment : obj coiids) (name : string) :
  files c = true →
  cluster_plan c = Object plan →
  plan_parts plan = Object parts →
  plan_assignment plan = Object assignment →
  get name (cluster_map c) = extend None (units_under parts assignment name).
Proof.
  intros Hfiles Hplan Hparts Hassignment.
  destruct (cluster_map_collected c Hfiles)
    as (plan' & parts' & entries & Hplan' & Hparts' & Hentries & _ & ->).
  rewrite Hplan in Hplan'. injection Hplan' as <-.
  rewrite Hparts in Hparts'. injection Hparts' as <-.
  rewrite Hassignment in Hentries. injection Hentries as <-.
  by rewrite get_collect_entries.
Qed.

Lemma built_nil : built [].
Proof. split; [done|]. split; [constructor|]. split; constructor. Qed.

Lemma filed_built (unitMap : UnitMap) (c : cluster) :
  built unitMap → files c = true → built (filed unitMap c).
Proof.
  intros (Hproto & Hobj & Hord & Hneat) Hfiles. unfold filed.
  destruct (cluster_key c) as [k|]; [|done].
  split; [|split; [|split]].
  - rewrite get_assign by done. rewrite decide_False; [done|]. by intros [-> ?].
  - by apply assign_NoDup.
  - by apply assign_in_key_order.
  - apply Forall_forall. intros e [->|He]%elem_of_assign.
    + by apply cluster_map_neat.
    + by apply (proj1 (Forall_forall _ _) Hneat).
Qed.

Lemma fold_filed_built (clusters : list cluster) (unitMap : UnitMap) :
  built unitMap → forallb files clusters = true →
  built (fold_left filed clusters unitMap).
Proof. apply (fold_left_invariant filed files built filed_built). Qed.

Lemma get_filed (unitMap : UnitMap) (c : cluster) (k : string) :
  built unitMap →
  get k (filed unitMap c)
  = if decide (cluster_key c = Some k ∧ k ≠ "__proto__")
    then Some (cluster_map c) else get k unitMap.
Proof.
  intros (Hproto & _). unfold filed.
  destruct (cluster_key c) as [k'|].
  - rewrite get_assign by done.
    destruct (decide (k' = k)) as [->|Hne].
    + destruct (decide (k ≠ "__proto__")).
      * by rewrite !decide_True.
      * rewrite !decide_False; [done| |]; by intros [_ ?].
    + rewrite !decide_False; [done| |]; intros [? _]; congruence.
  - rewrite decide_False; [done|]. by intros [? _].
Qed.

(** A key under which no cluster of the list is filed is left as it was. *)
Lemma get_fold_filed_other (clusters : list cluster) (k : string) :
  Some k ∉ cluster_key <$> clusters →
  ∀ unitMap,
    built unitMap → forallb files clusters = true →
    get k (fold_left filed clusters unitMap) = get k unitMap.
Proof.
  induction clusters as [|c clusters IH]; intros Hk unitMap Hb Hall; [done|].
  rewrite fmap_cons in Hk. apply not_elem_of_cons in Hk as [Hc Hk].
  simpl in *. apply andb_true_iff in Hall as [Hfiles Hall].
  rewrite IH; [|done|by apply filed_built|done].
  rewrite get_filed by done. rewrite decide_False; [done|].
  intros [Heq _]. congruence.
Qed.

(** The last cluster filed under a key is the one the unit map has there. *)
Lemma get_fold_filed_last (clusters : list cluster) (c : cluster)
    (k : string) (unitMap : UnitMap) :
  last_with_its_key clusters c →
  cluster_key c = Some k → k ≠ "__proto__" →
  built unitMap → forallb files clusters = true →
  get k (fold_left filed clusters unitMap) = Some (cluster_map c).
Proof.
  intros (before & after & -> & Hlast) Hk Hproto Hb Hall.
  rewrite forallb_app in Hall. apply andb_true_iff in Hall as [Hbefore Hall].
  simpl in Hall. apply andb_true_iff in Hall as [Hfiles Hafter].
  rewrite fold_left_app. simpl.
  assert (built (fold_left filed before unitMap)) as Hb'
    by by apply fold_filed_built.
  rewrite get_fold_filed_other;
    [|by rewrite <- Hk|by apply filed_built|done].
  rewrite get_filed by done. by rewrite decide_True.
Qed.


(** On clusters that can be filed, [createUnitMap] returns a unit map, and
    the unit map is as built. *)
Lemma createUnitMap_built (clusters : list cluster) :
  Forall (λ c, files c = true) clusters →
  createUnitMap clusters = Ok (fold_left filed clusters []) ∧
  forallb files clusters = true ∧
  built (fold_left filed clusters []).
Proof.
  intros Hall.
  assert (forallb files clusters = true) as Hb.
  { apply forallb_forall. intros c Hc%list_elem_of_In.
    by apply (proj1 (Forall_forall _ _) Hall). }
  rewrite createUnitMap_fold, Hb. split; [done|]. split; [done|].
  apply fold_filed_built; [apply built_nil | done].
Qed.

Lemma built_is_unitMap (unitMap : UnitMap) : built unitMap → is_unitMap unitMap.
Proof.
  intros (_ & Hobj & _ & Hneat). split; [done|].
  eapply Forall_impl; [exact Hneat|]. by intros e (_ & He & _).
Qed.

(** The unit map of clusters that can be filed is an object of objects. *)
Lemma createUnitMap_is_unitMap (clusters : list cluster) :
  Forall (λ c, files c = true) clusters →
  ∃ unitMap, createUnitMap clusters = Ok unitMap ∧ is_unitMap unitMap.
Proof.
  intros (Hrun & _ & Hb)%createUnitMap_built.
  eexists. split; [exact Hrun|]. by apply built_is_unitMap.
Qed.

(** What a cluster of the list has in the unit map, when no later cluster
    has its key. *)
Lemma createUnitMap_get (clusters : list cluster) (c : cluster) (plan : plan) :
  Forall (λ c, files c = true) clusters →
  last_with_its_key clusters c →
  cluster_plan c = Object plan →
  label (plan_id plan) ≠ "__proto__" →
  ∃ unitMap,
    createUnitMap clusters = Ok unitMap ∧ built unitMap ∧
    files c = true ∧
    get (label (plan_id plan)) unitMap = Some (cluster_map c).
Proof.
  intros Hall Hlast Hplan Hproto.
  destruct (createUnitMap_built clusters Hall) as (Hrun & Hb & Hbuilt).
  eexists. split; [exact Hrun|]. split; [done|]. split.
  - destruct Hlast as (before & after & -> & _).
    apply (proj1 (Forall_forall _ _) Hall). apply elem_of_app. right. left.
  - apply get_fold_filed_last; [done| |done|apply built_nil|done].
    unfold cluster_key. by rewrite Hplan.
Qed.

(** Where the clusters have different keys, each is the last with its key. *)
Lemma NoDup_last_with_its_key (clusters : list cluster) (c : cluster) :
  NoDup (cluster_key <$> clusters) → c ∈ clusters →
  last_with_its_key clusters c.
Proof.
  intros Hnd (before & after & ->)%list_elem_of_split.
  exists before, after. split; [done|].
  rewrite fmap_app, fmap_cons in Hnd.
  by apply NoDup_app in Hnd as (_ & _ & [Hc _]%NoDup_cons).
Qed.





Lemma elem_of_units_under (parts : list part)
    (entries : list (string * coiids)) (name unit : string) :
  unit ∈ units_under parts entries name ↔
  ∃ coiids coiid,
    (unit, coiids) ∈ entries ∧ coiid ∈ mentioned coiids ∧
    bucket parts coiid = name.
Proof.
  unfold units_under. rewrite list_elem_of_bind. split.
  - intros ([u cs] & (coiid & Hin & Hcoiid)%list_elem_of_bind & Hentry).
    simpl in *. case_decide as Hb; [|by apply elem_of_nil in Hin].
    apply list_elem_of_singleton in Hin as ->. by exists cs, coiid.
  - intros (cs & coiid & Hentry & Hcoiid & Hb).
    exists (unit, cs). split; [|done]. apply list_elem_of_bind.
    exists coiid. split; [|done]. simpl. rewrite decide_True by done. by left.
Qed.


Lemma elem_of_extend_None (units : list string) (unit : string) :
  (∃ us, extend None units = Some us ∧ unit ∈ us) ↔ unit ∈ units.
Proof.
  destruct units as [|u units]; simpl.
  - split; [by intros (us & ? & ?)|]. by intros ?%elem_of_nil.
  - split; [by intros (us & [= <-] & ?)|]. intros H. by eexists.
Qed.
End UnitMaps.



(** Of two clusters with one identifier the unit map keeps the second. *)
Example createUnitMap_same_identifier :
  createUnitMap (engine:=V8)
    [ Scenario.plan_with (Object [("unit1", One (Num (safe 0)))]);
      Scenario.plan_with (Object [("unit2", One (Num (safe 1)))]) ]
  = Ok [ ("7", [ ("undefined", ["unit2"]) ]) ].
Proof. vm_compute. reflexivity. Qed.

(** Clusters with numeric identifiers are listed by ascending identifier,
    not in the order of the input. *)
Example createUnitMap_numeric_identifiers :
  Object_keys <$>
    createUnitMap (engine:=V8)
      [ Scenario.plan_with (Object [("unit1", One (Num (safe 0)))]);
        {| cluster_plan := Object
             {| plan_id := Some (Num (safe 3)); plan_parts := Object [];
                plan_assignment := Object [] |} |} ]
  = Ok ["3"; "7"].
Proof. vm_compute. reflexivity. Qed.

Lemma scenario_files : Forall (λ c, files c = true) Scenario.clusters.
Proof. repeat constructor. Qed.



(** A plan without parts passes the filter too, and cannot be iterated. *)
Example createUnitMap_no_parts :
  eligible Scenario.no_parts = true ∧
  createUnitMap (engine:=V8) [Scenario.no_parts] = Throw TypeError.
Proof. vm_compute. repeat split. Qed.

Example dangling_createUnitMap :
  createUnitMap (engine:=V8) [Scenario.dangling]
  = Ok [ ("42", [ ("Alpha", ["unit1"; "unit9"]); ("undefined", ["unit9"]) ]) ].
Proof. vm_compute. reflexivity. Qed.



(** ** patternStyleExpression *)

Lemma pattern_expr_allotted (patternMatch : PatternMatch) cid coiName patterns :
  get cid patternMatch = Some patterns →
  is_Some (get coiName patterns) →
  pattern_expr patternMatch cid coiName
  = Ok (expr_of_pattern (assigned patternMatch (cid, coiName))).
Proof.
  intros Hcid [p Hp]. unfold pattern_expr, assigned, read. simpl.
  rewrite Hcid. simpl. rewrite Hp. by destruct p.
Qed.

Lemma patternStyleExpression_inner (patternMatch : PatternMatch) cid patterns
    (cluster : obj (list string)) :
  get cid patternMatch = Some patterns →
  (∀ coiName, coiName ∈ Object_keys cluster → is_Some (get coiName patterns)) →
  ∀ expression,
    for_of
      (λ (expression : list expr) (entry : string * list string),
         let '(coiName, geoids) := entry in
         pattern ← pattern_expr patternMatch cid coiName;
         Ok (expression ++ [subexpression geoids; pattern]))
      cluster expression
    = Ok (expression ++
            (((λ coi, (cid, coi.1, coi.2)) <$> cluster) ≫= branch patternMatch)).
Proof.
  intros Hcid. induction cluster as [|[coiName geoids] cluster IH];
    intros Hown expression.
  - csimpl. by rewrite app_nil_r.
  - rewrite for_of_cons. cbv beta iota.
    rewrite (pattern_expr_allotted _ _ _ _ Hcid) at 1 by (apply Hown; left).
    rewrite bind_Ok, bind_Ok, IH.
    + rewrite fmap_cons. csimpl. unfold branch at 2. simpl.
      by rewrite <- app_assoc.
    + intros k Hk. apply Hown. by right.
Qed.

Lemma patternStyleExpression_loop (unitMap : UnitMap)
    (patternMatch : PatternMatch) :
  allots patternMatch unitMap →
  ∀ expression,
    for_of
      (λ (expression : list expr) (entry : string * obj (list string)),
         let '(clusterIdentifier, cluster) := entry in
         for_of
           (λ (expression : list expr) (entry : string * list string),
              let '(coiName, geoids) := entry in
              pattern ← pattern_expr patternMatch clusterIdentifier coiName;
              Ok (expression ++ [subexpression geoids; pattern]))
           (Object_entries cluster) expression)
      (Object_entries unitMap) expression
    = Ok (expression ++ (triples unitMap ≫= branch patternMatch)).
Proof.
  unfold Object_entries, triples.
  induction unitMap as [|[cid cluster] um IH]; intros Hm expression.
  - csimpl. by rewrite app_nil_r.
  - rewrite for_of_cons. cbv beta iota.
    assert (allots patternMatch um) as Hm'.
    { intros pair Hpair. apply Hm. rewrite pairs_cons.
      apply elem_of_app. by right. }
    destruct cluster as [|coi cluster].
    { rewrite for_of_nil, bind_Ok, IH by done. unfold Object_entries.
      csimpl. done. }
    destruct (Hm (cid, coi.1)) as (patterns & Hcid & _).
    { rewrite pairs_cons. apply elem_of_app. left.
      apply list_elem_of_fmap. exists coi.1. split; [done|left]. }
    simpl in Hcid.
    match goal with
    | |- ?run ≫= _ = _ =>
        replace run with
          (Ok (expression ++
                 (((λ coi : string * list string, (cid, coi.1, coi.2))
                     <$> coi :: cluster) ≫= branch patternMatch))
           : result (list expr))
    end.
    + rewrite bind_Ok, IH by done. unfold Object_entries.
      csimpl. rewrite !bind_app, <- !app_assoc. done.
    + symmetry.
      apply (patternStyleExpression_inner patternMatch cid patterns
               (coi :: cluster) Hcid).
      intros k Hk. destruct (Hm (cid, k)) as (patterns' & Hcid' & Hown).
      { rewrite pairs_cons. apply elem_of_app. left.
        apply list_elem_of_fmap. by exists k. }
      simpl in *. rewrite Hcid in Hcid'. by injection Hcid' as <-.
Qed.

(** C4. When the pattern mapping has an entry for every (cluster, COI) pair
    of the unit map, the returned expression is "case", then for every
    triple of the unit map, in its order, the test that the GEOID20 of a
    unit is in the unit list followed by the pattern of the COI, then
    "transparent"; and the same expression is set as the "fill-pattern"
    paint property of the target. *)
Theorem patternStyleExpression_case_expression
    (units : layer) (unitMap : UnitMap) (patternMatch : PatternMatch) :
  allots patternMatch unitMap →
  ∃ expression,
    expression
    = Array (Text "case" ::
               (triples unitMap ≫= case_branch patternMatch)
               ++ [Text "transparent"]) ∧
    patternStyleExpression units unitMap patternMatch
    = Ok (expression,
          {| layer_type := layer_type units;
             layer_calls := layer_calls units ++
                              [SetPaintProperty "fill-pattern" expression] |}).
Proof.
  intros Hm. eexists. split; [reflexivity|].
  unfold patternStyleExpression.
  rewrite (patternStyleExpression_loop unitMap patternMatch Hm). done.
Qed.

(** The mapping [patternsToCOIs] returns has an entry for every pair. *)
Lemma patternsToCOIs_allots (unitMap : UnitMap) (patterns : list string) :
  is_unitMap unitMap →
  ∃ mapping rest,
    patternsToCOIs unitMap patterns = Ok (mapping, rest) ∧
    allots mapping unitMap.
Proof.
  unfold patternsToCOIs, Object_entries.
  match goal with |- context [for_of ?body _ _] => set (outer := body) end.
  generalize (@nil (string * obj (option string))). intros m0 Hum.
  revert m0 patterns.
  enough (∀ m ps, ∃ m' ps',
            for_of outer unitMap (m, ps) = Ok (m', ps') ∧
            (∀ c, c ∉ Object_keys unitMap → get c m' = get c m) ∧
            allots m' unitMap) as H.
  { intros m ps. destruct (H m ps) as (m' & ps' & ? & ? & ?).
    by exists m', ps'. }
  destruct Hum as [Hnd Hall]. unfold is_object in Hnd.
  induction unitMap as [|[cid cluster] um IH]; intros m ps.
  - exists m, ps. split; [done|]. split; [done|].
    intros pair Hpair. by apply elem_of_nil in Hpair.
  - unfold Object_keys in Hnd. rewrite fmap_cons in Hnd. simpl in Hnd.
    apply NoDup_cons in Hnd as [Hcid Hnd].
    apply Forall_cons in Hall as [Hcl Hall]. simpl in Hcl.
    rewrite for_of_cons. unfold outer at 2. cbv beta iota.
    destruct (patternsToCOIs_inner cid (Object_keys cluster)
                (set cid [] m) ps [] (get_set_eq _ _ _))
      as (m1 & inner' & Hrun & Hoth & Hm1 & _ & Hin).
    match goal with
    | |- context [?run ≫= for_of outer um] =>
        replace run with (Ok (m1, drop (length (Object_keys cluster)) ps))
          by (symmetry; exact Hrun)
    end.
    rewrite bind_Ok.
    destruct (IH Hnd Hall m1 (drop (length (Object_keys cluster)) ps))
      as (m' & ps' & Hrun' & Hoth' & Hallots).
    exists m', ps'. split; [done|].
    assert (get cid m' = Some inner') as Hcid' by by rewrite Hoth'.
    split.
    + intros c Hc. unfold Object_keys in Hc. rewrite fmap_cons in Hc.
      apply not_elem_of_cons in Hc as [Hne Hc]. simpl in Hne.
      rewrite Hoth' by done. rewrite Hoth by done. by apply get_set_ne.
    + intros pair. rewrite pairs_cons, elem_of_app.
      intros [(k & -> & Hk)%list_elem_of_fmap|Hpair]; [|by apply Hallots].
      exists inner'. split; [done|]. simpl.
      apply list_elem_of_lookup in Hk as [i Hi].
      rewrite (Hin Hcl i k Hi). by eexists.
Qed.

Lemma scenario_allots : allots Scenario.patternMatch Scenario.unitMap.
Proof.
  intros pair Hpair. unfold pairs in Hpair. csimpl in Hpair.
  repeat (apply elem_of_cons in Hpair as [->|Hpair];
          [eexists; split; [reflexivity|by eexists]|]).
  by apply elem_of_nil in Hpair.
Qed.

Example scenario_patternStyleExpression (units : layer) :
  fst <$> patternStyleExpression units Scenario.unitMap Scenario.patternMatch
  = Ok (Array [ Text "case";
                subexpression ["unit1"; "unit2"]; Text "p1";
                subexpression ["unit2"]; Text "p2";
                subexpression ["unit3"]; Text "p3";
                Text "transparent" ]).
Proof. reflexivity. Qed.

(** A pattern mapping without an entry for the second cluster makes the
    function throw: the target receives nothing. *)
Lemma patternStyleExpression_without_entry :
  patternStyleExpression Scenario.fill_layer Scenario.unitMap
    [ ("A", [ ("Alpha", Some "p1"); ("Beta", Some "p2") ]) ]
  = Throw TypeError.
Proof. reflexivity. Qed.

Lemma patternStyleExpression_case_expression_witness :
  ∃ expression,
    expression
    = Array (Text "case" ::
               (triples Scenario.unitMap ≫= case_branch Scenario.patternMatch)
               ++ [Text "transparent"]) ∧
    patternStyleExpression Scenario.fill_layer
      Scenario.unitMap Scenario.patternMatch
    = Ok (expression,
          {| layer_type := layer_type Scenario.fill_layer;
             layer_calls := layer_calls Scenario.fill_layer ++
                              [SetPaintProperty "fill-pattern" expression] |}).
Proof.
  apply (patternStyleExpression_case_expression
           Scenario.fill_layer Scenario.unitMap Scenario.patternMatch).
  exact scenario_allots.
Defined.

(** C9. The expression [patternStyleExpression] returns, or the error it
    throws, is a function of the unit map and the pattern mapping alone: two
    calls on the same unit map and pattern mapping agree, whatever calls the
    target received before, the first of the two included. *)
Theorem patternStyleExpression_deterministic
    (units1 units2 : layer) (unitMap : UnitMap) (patternMatch : PatternMatch) :
  fst <$> patternStyleExpression units1 unitMap patternMatch
  = fst <$> patternStyleExpression units2 unitMap patternMatch.
Proof.
  unfold patternStyleExpression.
  by destruct (for_of _ (Object_entries unitMap) [Text "case"]).
Qed.

(** ** opacityStyleExpression *)

Lemma strip_prefix_Some (pat s rest : string) :
  strip_prefix pat s = Some rest ↔ s = pat +:+ rest.
Proof.
  revert s. induction pat as [|a pat IH]; intros s; simpl.
  - split; [by intros [= ->] | by intros ->].
  - destruct s as [|b s]; [done|].
    case_decide as Hab.
    + rewrite IH. subst b. split; [by intros -> | by intros [= ->]].
    + split; [done|]. intros [= -> _]. done.
Qed.

Lemma replace_here (pat rep post : string) :
  replace pat rep (pat +:+ post) = rep +:+ post.
Proof.
  assert (strip_prefix pat (pat +:+ post) = Some post) as H
    by by apply strip_prefix_Some.
  destruct (pat +:+ post) eqn:E; simpl; simpl in H; by rewrite H.
Qed.

(** [replace] rewrites the first occurrence of the pattern. *)
Lemma replace_first (pat rep : string) :
  ∀ pre post,
    (∀ pre' post',
       pre +:+ pat +:+ post = pre' +:+ pat +:+ post' →
       String.length pre ≤ String.length pre') →
    replace pat rep (pre +:+ pat +:+ post) = pre +:+ rep +:+ post.
Proof.
  induction pre as [|a pre IH]; intros post Hfirst.
  - change (replace pat rep (pat +:+ post) = rep +:+ post). apply replace_here.
  - simpl.
    destruct (strip_prefix pat (String a (pre +:+ pat +:+ post)))
      as [rest|] eqn:E.
    + apply strip_prefix_Some in E.
      specialize (Hfirst EmptyString rest E). simpl in Hfirst. lia.
    + change (String a pre +:+ rep +:+ post)
        with (String a (pre +:+ rep +:+ post)).
      f_equal. apply IH. intros pre' post' Heq.
      assert (String a pre +:+ pat +:+ post
              = String a pre' +:+ pat +:+ post') as Heq'.
      { change (String a (pre +:+ pat +:+ post)
                = String a (pre' +:+ pat +:+ post')). by rewrite Heq. }
      specialize (Hfirst (String a pre') post' Heq'). simpl in Hfirst. lia.
Qed.

(** A string in which the pattern does not occur is left as it is. *)
Lemma replace_absent (pat rep : string) :
  ∀ s, (∀ pre post, s ≠ pre +:+ pat +:+ post) → replace pat rep s = s.
Proof.
  induction s as [|a s IH]; intros Habs.
  - simpl. destruct (strip_prefix pat EmptyString) as [rest|] eqn:E; [|done].
    apply strip_prefix_Some in E. by destruct (Habs EmptyString rest).
  - simpl. destruct (strip_prefix pat (String a s)) as [rest|] eqn:E.
    + apply strip_prefix_Some in E. by destruct (Habs EmptyString rest).
    + f_equal. apply IH. intros pre post ->.
      by destruct (Habs (String a pre) post).
Qed.

Example replace_symbol : replace "symbol" "icon" "symbol" = "icon".
Proof. reflexivity. Qed.

Example replace_fill : replace "symbol" "icon" "fill" = "fill".
Proof. reflexivity. Qed.

Example opacity_of_symbol_layer (geoids : list string) :
  layer_calls
    (opacityStyleExpression {| layer_type := "symbol"; layer_calls := [] |}
       geoids None)
  = [ SetPaintProperty "icon-opacity"
        (Array [Text "case"; subexpression geoids;
                Number 0%float; Number (1 / 3)%float]) ].
Proof. reflexivity. Qed.

(** Either the pattern does not occur in a string, or it has a first
    occurrence there. *)
Lemma first_occurrence_or_none (pat : string) :
  ∀ s,
    (∀ pre post, s ≠ pre +:+ pat +:+ post) ∨
    ∃ pre post,
      s = pre +:+ pat +:+ post ∧
      ∀ pre' post',
        s = pre' +:+ pat +:+ post' → String.length pre ≤ String.length pre'.
Proof.
  assert (∀ s, strip_prefix pat s = None →
               ∀ post, s ≠ EmptyString +:+ pat +:+ post) as Hhere.
  { intros s Hs post Heq.
    assert (strip_prefix pat s = Some post) as Hp
      by by apply strip_prefix_Some.
    congruence. }
  induction s as [|a s IH].
  - destruct (strip_prefix pat EmptyString) as [rest|] eqn:E.
    + right. exists EmptyString, rest. split.
      * apply strip_prefix_Some in E. exact E.
      * intros pre' post' _. simpl. lia.
    + left. intros [|b pre] post; [by apply Hhere | done].
  - destruct (strip_prefix pat (String a s)) as [rest|] eqn:E.
    + right. exists EmptyString, rest. split.
      * apply strip_prefix_Some in E. exact E.
      * intros pre' post' _. simpl. lia.
    + destruct IH as [Habs | (pre & post & Heq & Hfirst)].
      * left. intros [|b pre] post; [by apply Hhere|].
        intros Heq.
        change (String a s = String b (pre +:+ pat +:+ post)) in Heq.
        injection Heq as _ Hs.
        by destruct (Habs pre post).
      * right. exists (String a pre), post. split.
        { change (String a s = String a (pre +:+ pat +:+ post)).
          by rewrite Heq. }
        intros [|b pre'] post' Heq'; [by destruct (Hhere _ E post')|].
        change (String a s = String b (pre' +:+ pat +:+ post')) in Heq'.
        injection Heq' as _ Hs.
        specialize (Hfirst pre' post' Hs).
        simpl. lia.
Qed.

(** C8. [opacityStyleExpression] builds the conditional whose test is the
    membership of the GEOID20 of a unit in [geoids], whose value on
    membership is 0 and whose value otherwise is the opacity passed, one
    third when none is passed; it sets it, after the calls the target had
    received, as the paint property named by the type of the target with
    "symbol" replaced by "icon", followed by "-opacity": a type in which
    "symbol" does not occur is taken as it is, and in a type in which it
    occurs what stands before and after its first occurrence is kept around
    "icon". *)
Theorem opacityStyleExpression_two_branches
    (units : layer) (geoids : list string) (opacity : option float) :
  ∃ filter layer,
    filter
    = Array [ Text "case";
              Array [ Text "in";
                      Array [Text "get"; Text "GEOID20"];
                      Array [Text "literal"; Array (Text <$> geoids)] ];
              Number 0%float;
              Number (match opacity with
                      | Some x => x
                      | None => (1 / 3)%float
                      end) ] ∧
    opacityStyleExpression units geoids opacity
    = {| layer_type := layer_type units;
         layer_calls := layer_calls units ++ [SetPaintProperty layer filter] |} ∧
    ((∀ pre post, layer_type units ≠ pre +:+ "symbol" +:+ post) →
     layer = layer_type units +:+ "-opacity") ∧
    (∀ pre post,
       layer_type units = pre +:+ "symbol" +:+ post →
       (∀ pre' post',
          layer_type units = pre' +:+ "symbol" +:+ post' →
          String.length pre ≤ String.length pre') →
       layer = (pre +:+ "icon" +:+ post) +:+ "-opacity") ∧
    ((∀ pre post, layer_type units ≠ pre +:+ "symbol" +:+ post) ∨
     ∃ pre post,
       layer_type units = pre +:+ "symbol" +:+ post ∧
       ∀ pre' post',
         layer_type units = pre' +:+ "symbol" +:+ post' →
         String.length pre ≤ String.length pre').
Proof.
  exists (Array [ Text "case"; subexpression geoids; Number 0%float;
                  Number (default (1 / 3)%float opacity) ]),
         (replace "symbol" "icon" (layer_type units) +:+ "-opacity").
  split; [by destruct opacity|].
  split; [by destruct opacity|].
  split; [|split].
  - intros Habs. by rewrite (replace_absent "symbol" "icon" _ Habs).
  - intros pre post Heq Hfirst. rewrite Heq.
    rewrite (replace_first "symbol" "icon" pre post); [done|].
    intros pre' post' Heq'. apply (Hfirst pre' post'). by rewrite Heq.
  - apply first_occurrence_or_none.
Qed.

(** ** loadPatterns and resolvesToArray *)

Section AssetLoaderFacts.
Context {image load_error : Type}.
Implicit Types (st : loading image) (img : option image)
  (error : option load_error).

Lemma settle_callbacks i p st : callbacks (settle i p st) = callbacks st.
Proof. unfold settle. by destruct (_ !! i) as [[]|]. Qed.

Lemma settle_map i p st : map (settle i p st) = map st.
Proof. unfold settle. by destruct (_ !! i) as [[]|]. Qed.

Lemma settle_other i j p st :
  i ≠ j →
  patternLoadingPromises (settle i p st) !! j = patternLoadingPromises st !! j.
Proof.
  intros Hne. unfold settle. destruct (_ !! i) as [[]|]; simpl; try done.
  by apply list_lookup_insert_ne.
Qed.

Lemma settle_pending i p st :
  patternLoadingPromises st !! i = Some Pending →
  patternLoadingPromises (settle i p st) !! i = Some p.
Proof.
  intros H. unfold settle. rewrite H. simpl.
  apply list_lookup_insert_eq. by apply lookup_lt_Some in H.
Qed.

(** A promise that is not pending stays as it is. *)
Lemma settle_settled i p st :
  patternLoadingPromises st !! i ≠ Some Pending → settle i p st = st.
Proof. intros H. unfold settle. by destruct (_ !! i) as [[]|]. Qed.

Lemma load_callback_callbacks i pattern error img st :
  callbacks (load_callback i pattern error img st) = callbacks st.
Proof.
  unfold load_callback, resolve, reject, addImage.
  rewrite settle_callbacks. simpl. destruct error; [apply settle_callbacks|done].
Qed.

Lemma load_callback_other i j pattern error img st :
  i ≠ j →
  patternLoadingPromises (load_callback i pattern error img st) !! j
  = patternLoadingPromises st !! j.
Proof.
  intros Hne. unfold load_callback, resolve, reject, addImage.
  rewrite settle_other by done. simpl.
  destruct error; [by apply settle_other|done].
Qed.

Lemma load_callback_pending i pattern error img st :
  patternLoadingPromises st !! i = Some Pending →
  patternLoadingPromises (load_callback i pattern error img st) !! i
  = Some (promise_after pattern (Some (error, img))).
Proof.
  intros H. unfold load_callback, resolve, reject.
  destruct error as [e|]; simpl.
  - rewrite settle_settled.
    + simpl. by apply settle_pending.
    + simpl. by rewrite (settle_pending _ _ _ H).
  - by apply settle_pending.
Qed.

Lemma load_callback_settled i pattern error img st p :
  patternLoadingPromises st !! i = Some p → p ≠ Pending →
  patternLoadingPromises (load_callback i pattern error img st) !! i = Some p.
Proof.
  intros H Hp. unfold load_callback, resolve, reject.
  assert (patternLoadingPromises st !! i ≠ Some Pending) as Hs by congruence.
  destruct error as [e|]; simpl.
  - rewrite (settle_settled _ _ st) by done.
    rewrite settle_settled; [done|]. simpl. congruence.
  - rewrite settle_settled; [done|]. simpl. congruence.
Qed.

(** C10. When the load reports an error, the callback rejects the promise
    with "transparent" and goes on: the map receives [addImage] with the
    pattern and the image argument of the callback, and the [resolve] that
    follows finds the promise settled and changes nothing. *)
Theorem load_callback_error_still_adds_image
    (i : nat) (pattern : string) (e : load_error) (img : option image)
    (st : loading image) :
  load_callback i pattern (Some e) img st
  = resolve i pattern (addImage pattern img (reject i "transparent" st)) ∧
  map (load_callback i pattern (Some e) img st)
  = map st ++ [AddImage pattern img] ∧
  patternLoadingPromises (load_callback i pattern (Some e) img st)
  = patternLoadingPromises (reject i "transparent" st).
Proof.
  split; [done|].
  unfold load_callback, resolve, reject. split.
  - by rewrite settle_map; simpl; rewrite settle_map.
  - destruct (patternLoadingPromises st !! i) as [[]|] eqn:H.
    + rewrite settle_settled; [done|]. simpl.
      by rewrite (settle_pending _ _ _ H).
    + rewrite (settle_settled _ _ st) by congruence.
      rewrite settle_settled; [done|]. simpl. congruence.
    + rewrite (settle_settled _ _ st) by congruence.
      rewrite settle_settled; [done|]. simpl. congruence.
    + rewrite (settle_settled _ _ st) by congruence.
      rewrite settle_settled; [done|]. simpl. congruence.
Qed.
End AssetLoaderFacts.

Section AssetLoaderRuns.
Context {image load_error : Type}.
Implicit Types (st : loading image)
  (reports : list (nat * option load_error * option image)).

Lemma report_callbacks st r : callbacks (report (load_error:=load_error) st r) = callbacks st.
Proof.
  destruct r as [[i error] img]. unfold report.
  destruct (callbacks st !! i); [apply load_callback_callbacks|done].
Qed.

Lemma report_settled st r i p :
  patternLoadingPromises st !! i = Some p → p ≠ Pending →
  patternLoadingPromises (report (load_error:=load_error) st r) !! i = Some p.
Proof.
  intros H Hp. destruct r as [[j error] img]. unfold report.
  destruct (callbacks st !! j) as [pattern|]; [|done].
  destruct (decide (j = i)) as [->|Hne].
  - by apply load_callback_settled.
  - by rewrite load_callback_other.
Qed.

Lemma run_settled reports :
  ∀ st i p,
    patternLoadingPromises st !! i = Some p → p ≠ Pending →
    patternLoadingPromises (run reports st) !! i = Some p.
Proof.
  induction reports as [|r reports IH]; intros st i p H Hp; [done|].
  simpl. apply IH; [|done]. by apply report_settled.
Qed.

(** A pending promise ends in the state its first report puts it in. *)
Lemma run_pending reports :
  ∀ st i pattern,
    callbacks st !! i = Some pattern →
    patternLoadingPromises st !! i = Some Pending →
    patternLoadingPromises (run reports st) !! i
    = Some (promise_after pattern (first_report i reports)).
Proof.
  induction reports as [|[[j error] img] reports IH];
    intros st i pattern Hcb Hp; [done|].
  change (run ((j, error, img) :: reports) st)
    with (run reports (report st (j, error, img))).
  simpl first_report. destruct (decide (j = i)) as [->|Hne].
  - apply run_settled; [|by destruct error].
    unfold report. rewrite Hcb. by apply load_callback_pending.
  - apply IH.
    + by rewrite report_callbacks.
    + unfold report. destruct (callbacks st !! j); [|done].
      by rewrite load_callback_other.
Qed.

Lemma run_length reports :
  ∀ st, length (patternLoadingPromises (run reports st))
        = length (patternLoadingPromises st).
Proof.
  induction reports as [|[[j error] img] reports IH]; intros st; [done|].
  simpl. rewrite IH. destruct (callbacks st !! j); [|done].
  unfold load_callback, resolve, reject, settle.
  repeat (match goal with
          | |- context [match ?x with _ => _ end] => destruct x; simpl
          end; rewrite ?length_insert); done.
Qed.

Lemma loadPatterns_from (patternMapping : obj string) :
  ∀ st,
    fold_left
      (λ st entry,
         let '(pattern, url) := entry in
         {| map := map st ++ [LoadImage url];
            patternLoadingPromises := patternLoadingPromises st ++ [Pending];
            callbacks := callbacks st ++ [pattern] |})
      patternMapping st
    = {| map := map st ++ (LoadImage <$> Object_values patternMapping);
         patternLoadingPromises :=
           patternLoadingPromises st ++ replicate (length patternMapping) Pending;
         callbacks := callbacks st ++ Object_keys patternMapping |}.
Proof.
  unfold Object_values, Object_keys.
  induction patternMapping as [|[pattern url] pm IH]; intros st.
  - simpl. rewrite !app_nil_r. by destruct st.
  - simpl. rewrite IH. simpl. by rewrite <- !app_assoc.
Qed.

(** [loadPatterns] asks the map for every image, in catalog order, and
    leaves one pending promise per pattern. *)
Lemma loadPatterns_state (map0 : list (map_call image))
    (patternMapping : obj string) :
  loadPatterns map0 patternMapping
  = {| map := map0 ++ (LoadImage <$> Object_values patternMapping);
       patternLoadingPromises := replicate (length patternMapping) Pending;
       callbacks := Object_keys patternMapping |}.
Proof. unfold loadPatterns, Object_entries. by rewrite loadPatterns_from. Qed.

Lemma resolvesToArray_from (results : list settlement) :
  ∀ values,
    fold_left (λ values r, values ++ [value r]) results values
    = values ++ (value <$> results).
Proof.
  induction results as [|r results IH]; intros values; simpl.
  - by rewrite app_nil_r.
  - rewrite IH. by rewrite <- app_assoc.
Qed.

Lemma resolvesToArray_fmap (results : list settlement) :
  resolvesToArray results = value <$> results.
Proof. unfold resolvesToArray. by rewrite resolvesToArray_from. Qed.

(** When the engine has reported on every request, in whatever order, the
    array [resolvesToArray] makes has one entry per pattern, in catalog
    order: the pattern name where the load succeeded and undefined where it
    reported an error. *)
Lemma loadedPatterns_entries (map0 : list (map_call image))
    (patternMapping : obj string) reports :
  (∀ i, i < length patternMapping → is_Some (first_report i reports)) →
  loadedPatterns map0 patternMapping reports
  = Some (imap (λ i pattern, entry_after pattern (first_report i reports))
               (Object_keys patternMapping)).
Proof.
  intros Hall. unfold loadedPatterns, Promise_allSettled.
  set (st := run reports (loadPatterns map0 patternMapping)).
  assert (patternLoadingPromises st
          = imap (λ (i : nat) (pattern : string),
                    promise_after pattern (first_report i reports))
                 (Object_keys patternMapping)) as ->.
  { apply list_eq. intros i. rewrite list_lookup_imap. unfold st.
    destruct (Object_keys patternMapping !! i) as [pattern|] eqn:E; simpl.
    - apply run_pending; rewrite loadPatterns_state; simpl; [done|].
      apply lookup_replicate. split; [done|].
      apply lookup_lt_Some in E. unfold Object_keys in E.
      by rewrite length_fmap in E.
    - apply lookup_ge_None. rewrite run_length, loadPatterns_state. simpl.
      rewrite length_replicate. apply lookup_ge_None in E.
      unfold Object_keys in E. by rewrite length_fmap in E. }
  rewrite (mapM_Some_2 _ _
             (imap (λ (i : nat) (pattern : string),
                      match first_report i reports with
                      | Some (Some _, _) => rejected "transparent"
                      | _ => fulfilled pattern
                      end)
                   (Object_keys patternMapping))).
  - simpl. rewrite resolvesToArray_fmap, fmap_imap. f_equal.
    apply imap_ext. intros i pattern _. simpl.
    by destruct (first_report i reports) as [[[e|] img]|].
  - apply Forall2_same_length_lookup_2.
    + by rewrite !length_imap.
    + intros i p r. rewrite !list_lookup_imap.
      intros (pattern & Hk & ->)%fmap_Some (pattern' & Hk' & ->)%fmap_Some.
      rewrite Hk in Hk'. injection Hk' as <-.
      destruct (Hall i) as [[[e|] img] Hrep]; [|by rewrite Hrep..].
      apply lookup_lt_Some in Hk. unfold Object_keys in Hk.
      by rewrite length_fmap in Hk.
Qed.
End AssetLoaderRuns.

(** Until the engine has reported on every request the promise of
    [loadPatterns] stays pending. *)
Example loadedPatterns_pending :
  loadedPatterns (image := string) (load_error := string) []
    [ ("p1", "url1"); ("p2", "url2") ] [ (1, None, Some "bitmap") ]
  = None.
Proof. vm_compute. reflexivity. Qed.

(** C1, as the code behaves. On a catalog of two patterns of which the
    first fails to load and the second loads, reported in the opposite
    order, the array has two entries in catalog order: undefined for the
    failed load and the name of the loaded pattern. No entry is
    "transparent": the rejection carries it as its reason, and
    [resolvesToArray] reads the value. *)
Theorem loadedPatterns_failed_load_is_undefined :
  let results :=
    loadedPatterns (image := string) (load_error := string) []
      [ ("p1", "url1"); ("p2", "url2") ]
      [ (1, None, Some "bitmap"); (0, Some "404", None) ] in
  results = Some [None; Some "p2"] ∧
  results ≠ Some [Some "transparent"; Some "p2"] ∧
  Promise_allSettled
    (patternLoadingPromises
       (run [ (1, None, Some "bitmap"); (0, Some "404", @None string) ]
          (loadPatterns [] [ ("p1", "url1"); ("p2", "url2") ])))
  = Some [rejected "transparent"; fulfilled "p2"].
Proof. vm_compute. repeat split; [discriminate]. Qed.

(** ** addCOIs *)

Lemma filter_eligible (clusters : list cluster) :
  Forall (λ c, eligible c = true) (List.filter eligible clusters).
Proof.
  apply Forall_forall. intros c Hc.
  by apply list_elem_of_In, filter_In in Hc as [_ Hc].
Qed.

(** A unit map that [createUnitMap] returned is an object of objects. *)
Lemma createUnitMap_Ok_is_unitMap {engine : Engine} (clusters : list cluster)
    (unitMap : UnitMap) :
  createUnitMap clusters = Ok unitMap → is_unitMap unitMap.
Proof.
  rewrite createUnitMap_fold.
  destruct (forallb files clusters) eqn:Hb; [|done].
  intros [= <-]. apply built_is_unitMap, fold_filed_built; [|done].
  apply built_nil.
Qed.

(** On a unit map that is an object of objects the allocation of [addCOIs]
    returns, and the pattern mapping has an entry for each of its pairs. *)
Lemma allocate_returns (unitMap : UnitMap) (patterns : obj string) :
  is_unitMap unitMap →
  ∃ a,
    allocate unitMap patterns = Ok a ∧
    alloc_unitMap a = unitMap ∧
    allots (alloc_patternMatch a) unitMap ∧
    assigned (alloc_patternMatch a) <$> pairs unitMap
    = served (alloc_names a) (numberOfNames unitMap).
Proof.
  intros Hobj.
  destruct (patternsToCOIs_served unitMap
              (take (numberOfNames unitMap) (Object_keys patterns)) Hobj)
    as (m & Hrun & Hass & _).
  destruct (patternsToCOIs_allots unitMap
              (take (numberOfNames unitMap) (Object_keys patterns)) Hobj)
    as (m' & rest & Hrun' & Hm).
  rewrite Hrun in Hrun'. injection Hrun' as <- _.
  unfold allocate, slice0. rewrite Hrun, bind_Ok. eexists.
  split; [reflexivity|]. simpl. split; [done|]. split; [done|].
  rewrite numberOfNames_pairs at 2. by rewrite <- Hass.
Qed.

(** The allocation of [addCOIs] returns when the unit map of the validated
    clusters can be built, and throws what [createUnitMap] throws when it
    cannot. *)
Lemma addCOIs_allocation_outcome {engine : Engine} (clusters : list cluster)
    (patterns : obj string) :
  match createUnitMap (List.filter eligible clusters) with
  | Ok unitMap =>
      ∃ a,
        addCOIs_allocation clusters patterns = Ok a ∧
        alloc_unitMap a = unitMap ∧
        is_unitMap unitMap ∧
        allots (alloc_patternMatch a) unitMap
  | Throw e => addCOIs_allocation clusters patterns = Throw e
  end.
Proof.
  unfold addCOIs_allocation. rewrite filterCOIs_filter, bind_Ok.
  destruct (createUnitMap (List.filter eligible clusters)) as [um|e] eqn:Hum;
    [|done].
  rewrite bind_Ok.
  pose proof (createUnitMap_Ok_is_unitMap _ _ Hum) as Hobj.
  destruct (allocate_returns um patterns Hobj) as (a & Ha & Hu & Hm & _).
  by exists a.
Qed.

(** The style step of [addCOIs] does not throw on what the allocation
    step returned. *)
Lemma addCOIs_style_returns (unitMap : UnitMap) (patterns : obj string)
    (coiunits : layer) :
  is_unitMap unitMap →
  ∃ a expression,
    allocate unitMap patterns = Ok a ∧
    addCOIs_style coiunits a
    = Ok (expression,
          {| layer_type := layer_type coiunits;
             layer_calls := layer_calls coiunits ++
                              [ SetPaintProperty "fill-pattern" expression;
                                SetOpacity 0%float ] |}).
Proof.
  intros Hobj.
  destruct (allocate_returns unitMap patterns Hobj) as (a & Ha & Hu & Hm & _).
  exists a. eexists. split; [exact Ha|].
  unfold addCOIs_style, patternStyleExpression.
  rewrite Hu, (patternStyleExpression_loop _ _ Hm). simpl.
  unfold setOpacity, setPaintProperty. simpl. by rewrite <- app_assoc.
Qed.

Example scenario_addCOIs_allocation :
  addCOIs_allocation (engine:=V8) Scenario.clusters Scenario.catalog
  = Ok {| alloc_unitMap := Scenario.unitMap;
          alloc_names := ["p1"; "p2"; "p3"];
          alloc_chosenPatterns := Scenario.catalog;
          alloc_patternMatch := Scenario.patternMatch |}.
Proof. vm_compute. reflexivity. Qed.

(** ** include *)

Lemma filter_includes_nil {V : Type} (o : obj V) :
  List.filter (λ entry, includes entry.1 []) o = [].
Proof. induction o as [|e o IH]; [done|]. simpl. apply IH. Qed.

Lemma filter_includes_take {V : Type} (o : obj V) :
  NoDup (Object_keys o) →
  ∀ n, List.filter (λ entry, includes entry.1 (take n (Object_keys o))) o
       = take n o.
Proof.
  unfold Object_keys.
  induction o as [|[k v] o IH]; intros Hnd n; [by destruct n|].
  rewrite fmap_cons in Hnd. apply NoDup_cons in Hnd as [Hk Hnd].
  destruct n as [|n].
  - apply (filter_includes_nil ((k, v) :: o)).
  - rewrite fmap_cons. simpl take. simpl List.filter.
    unfold includes at 1. rewrite bool_decide_eq_true_2 by left. f_equal.
    rewrite <- (IH Hnd n). apply filter_ext_in. intros [k' v'] Hin.
    unfold includes. simpl.
    apply bool_decide_ext. rewrite elem_of_cons.
    split; [|by right]. intros [->|H]; [|done].
    destruct Hk. apply list_elem_of_fmap. exists (k, v').
    split; [done|]. by apply list_elem_of_In.
Qed.

(** The chosen patterns are the first entries of the catalog, as many as
    names were taken. *)
Lemma include_take {V : Type} (object : obj V) (n : nat) :
  is_object object → in_key_order object →
  include object (slice0 n (Object_keys object)) = take n object.
Proof.
  intros Hnd Hsorted. unfold include, slice0, Object_entries.
  rewrite filter_includes_take by done.
  apply (Object_fromEntries_entries (take n object)).
  - unfold Object_keys. rewrite fmap_take.
    eapply sublist_NoDup; [exact Hnd | apply sublist_take].
  - unfold in_key_order, Object_keys in *. rewrite fmap_take.
    rewrite <- (take_drop n (object.*1)) in Hsorted.
    by apply StronglySorted_app_1_l in Hsorted.
Qed.

(** * Further properties *)

(** ** filterCOIs *)

Lemma filter_eligible_twice (clusters : list cluster) :
  List.filter eligible (List.filter eligible clusters)
  = List.filter eligible clusters.
Proof.
  induction clusters as [|c clusters IH]; [done|]. simpl.
  destruct (eligible c) eqn:E; simpl; [|done]. by rewrite E, IH.
Qed.

(** X1. Filtering what [filterCOIs] returned changes nothing, and a list is
    filtered cluster by cluster: the result on two lists put together is the
    two results put together. *)
Theorem filterCOIs_idempotent (clusters more : list cluster) :
  ∃ filtered kept,
    filterCOIs clusters = Ok filtered ∧
    filterCOIs filtered = Ok filtered ∧
    filterCOIs more = Ok kept ∧
    filterCOIs (clusters ++ more) = Ok (filtered ++ kept).
Proof.
  exists (List.filter eligible clusters), (List.filter eligible more).
  rewrite !filterCOIs_filter, filter_eligible_twice.
  by rewrite List.filter_app.
Qed.


(** ** createUnitMap: errors *)

Lemma forallb_false_elem {A : Type} (f : A → bool) (l : list A) :
  forallb f l = false ↔ ∃ x, x ∈ l ∧ f x = false.
Proof.
  induction l as [|x l IH]; simpl.
  - split; [done|]. intros (x & Hx & _). by apply elem_of_nil in Hx.
  - rewrite andb_false_iff, IH. split.
    + intros [Hx|(y & Hy & Hfy)]; [exists x; split; [left|done]|].
      exists y. split; [by right|done].
    + intros (y & [->|Hy]%elem_of_cons & Hfy); [by left|].
      right. by exists y.
Qed.


(** The validator lets through a cluster that cannot be filed. *)
Example createUnitMap_after_filterCOIs :
  filterCOIs [Scenario.no_plan; Scenario.constructor_cluster]
    ≫= createUnitMap (engine:=V8)
  = Throw TypeError.
Proof. vm_compute. reflexivity. Qed.

(** ** createUnitMap: the keys of the unit map *)

Section KeyOrder.
Context {V : Type}.
Implicit Types (o : obj V) (k : string) (v : V).


End KeyOrder.





Section UnitMapKeys.
Context {engine : Engine}.



End UnitMapKeys.

Example createUnitMap_key_order :
  Object_keys <$>
    createUnitMap (engine:=V8)
      ((λ id, {| cluster_plan := Object
                   {| plan_id := Some id; plan_parts := Object [];
                      plan_assignment := Object [] |} |})
         <$> [ Str "b"; Num (safe 20); Str "__proto__"; Str "a";
               Num (safe 3); Str "b"; Str "constructor" ])
  = Ok ["3"; "20"; "b"; "a"; "constructor"].
Proof. vm_compute. reflexivity. Qed.


(** ** createUnitMap: what a bucket holds *)

(** X4. In the unit map of clusters that can be filed, the cluster map of a
    cluster keeps, under a name, the units whose identifiers are collected
    under the name, in the order of the assignment and of the identifiers of
    each unit, a unit once per such identifier; a name under which no
    identifier is collected has no list, so no list is empty. An identifier
    is collected under the COI name that the parts resolve it to, under
    "undefined" when they resolve it to none, and, when no part names it and
    it is the name of a property that objects inherit, under the text of
    what is inherited. *)
Theorem createUnitMap_bucket {engine : Engine}
    (clusters : list cluster) (c : cluster) (plan : plan)
    (parts : list part) (assignment : obj coiids) :
  Forall (λ c, files c = true) clusters →
  last_with_its_key clusters c →
  cluster_plan c = Object plan →
  plan_parts plan = Object parts →
  plan_assignment plan = Object assignment →
  label (plan_id plan) ≠ "__proto__" →
  ∃ unitMap clusterMap,
    createUnitMap clusters = Ok unitMap ∧
    (label (plan_id plan), clusterMap) ∈ unitMap ∧
    is_object clusterMap ∧
    ∀ name units,
      (name, units) ∈ clusterMap ↔
      units ≠ [] ∧ units = units_under parts assignment name.
Proof.
  intros Hall Hlast Hplan Hparts Hassignment Hproto.
  destruct (createUnitMap_get clusters c plan Hall Hlast Hplan Hproto)
    as (unitMap & Hrun & Hbuilt & Hfiles & Hget).
  pose proof (cluster_map_neat c Hfiles) as (_ & Hobj & _).
  exists unitMap, (cluster_map c).
  split; [done|]. split; [by apply get_Some_elem_of|]. split; [done|].
  intros name units.
  assert ((name, units) ∈ cluster_map c ↔
          get name (cluster_map c) = Some units) as ->.
  { split; [by apply elem_of_get | apply get_Some_elem_of]. }
  rewrite (get_cluster_map c plan parts assignment) by done.
  destruct (units_under parts assignment name) as [|u us]; simpl.
  - split; [done|]. by intros [? ->].
  - split; [by intros [= <-]|]. by intros [_ ->].
Qed.

Example inherited_bucket :
  units_under (engine:=V8) Scenario.dangling_parts
    [ ("unit1", Many [Str "toString"; Num (safe 0)]);
      ("unit2", One (Str "__proto__")); ("unit3", One (Str "toString")) ]
  <$> [ "function toString() { [native code] }"; "[object Object]"; "Alpha";
        "undefined" ]
  = [ ["unit1"; "unit3"]; ["unit2"]; ["unit1"]; [] ].
Proof. vm_compute. reflexivity. Qed.

Lemma createUnitMap_bucket_witness :
  ∃ unitMap clusterMap,
    createUnitMap (engine:=V8) Scenario.clusters = Ok unitMap ∧
    (label (plan_id Scenario.planA), clusterMap) ∈ unitMap ∧
    is_object clusterMap ∧
    ∀ name units,
      (name, units) ∈ clusterMap ↔
      units ≠ [] ∧
      units = units_under (engine:=V8) Scenario.partsA Scenario.assignmentA name.
Proof.
  apply (createUnitMap_bucket (engine:=V8)
           Scenario.clusters Scenario.clusterA Scenario.planA
           Scenario.partsA Scenario.assignmentA).
  - exact scenario_files.
  - apply NoDup_last_with_its_key; [by_computation | left].
  - reflexivity.
  - reflexivity.
  - reflexivity.
  - discriminate.
Defined.

(** ** createUnitMap: the part that names an identifier *)

Lemma naming_part_last (before after : list part) (p : part) (coiid : ident) :
  label (part_id p) = label (Some coiid) →
  label (Some coiid) ≠ "__proto__" →
  Forall (λ q, label (part_id q) ≠ label (part_id p)) after →
  naming_part (before ++ p :: after) coiid = Some p.
Proof.
  intros Hp Hproto Hafter. induction before as [|q before IH].
  - simpl app. rewrite naming_part_cons, naming_part_None.
    + rewrite decide_True; [done|]. split; [done|]. by rewrite Hp.
    + eapply Forall_impl; [exact Hafter|]. intros q Hq. by rewrite <- Hp.
  - rewrite <- app_comm_cons, naming_part_cons. by rewrite IH.
Qed.

(** X5. Take a list of clusters that can be filed and a cluster of it as in
    C3. A unit that is assigned the identifier of a part is in the list
    under the name of that part, under "undefined" when the part has no
    name, provided the identifier is not "__proto__" and no later part of
    the plan has it: of parts with one identifier the last gives the
    name. *)
Theorem createUnitMap_unit_under_part_name {engine : Engine}
    (clusters : list cluster) (c : cluster) (plan : plan)
    (assignment : obj coiids) (before after : list part) (p : part)
    (unit : string) (coiids : coiids) (coiid : ident) :
  Forall (λ c, files c = true) clusters →
  last_with_its_key clusters c →
  cluster_plan c = Object plan →
  plan_parts plan = Object (before ++ p :: after) →
  plan_assignment plan = Object assignment →
  label (plan_id plan) ≠ "__proto__" →
  label (part_id p) = label (Some coiid) →
  label (Some coiid) ≠ "__proto__" →
  Forall (λ q, label (part_id q) ≠ label (part_id p)) after →
  (unit, coiids) ∈ assignment →
  coiid ∈ mentioned coiids →
  ∃ unitMap clusterMap units,
    createUnitMap clusters = Ok unitMap ∧
    (label (plan_id plan), clusterMap) ∈ unitMap ∧
    (default "undefined" (part_name p), units) ∈ clusterMap ∧
    unit ∈ units.
Proof.
  intros Hall Hlast Hplan Hparts Hassignment Hproto Hp Hid Hafter Hunit Hcoiid.
  pose proof (naming_part_last before after p coiid Hp Hid Hafter) as Hnaming.
  destruct (createUnitMap_get clusters c plan Hall Hlast Hplan Hproto)
    as (unitMap & Hrun & Hbuilt & Hfiles & Hget).
  assert (unit ∈ units_under (before ++ p :: after) assignment
                   (default "undefined" (part_name p))) as Hin.
  { apply elem_of_units_under. exists coiids, coiid.
    split; [done|]. split; [done|]. unfold bucket. by rewrite Hnaming. }
  apply elem_of_extend_None in Hin as (units & Hunits & Hin).
  rewrite <- (get_cluster_map c plan (before ++ p :: after) assignment)
    in Hunits by done.
  exists unitMap, (cluster_map c), units.
  split; [done|]. split; [by apply get_Some_elem_of|].
  split; [by apply get_Some_elem_of|done].
Qed.

(** Of two parts with the identifier 0, one as a number and one as a
    string, the second names the COI. *)
Example createUnitMap_renamed_part :
  createUnitMap (engine:=V8)
    [ {| cluster_plan := Object
           {| plan_id := Some (Num (safe 1));
              plan_parts :=
                Object [ {| part_id := Some (Num (safe 0));
                            part_name := Some "Old" |};
                         {| part_id := Some (Str "0");
                            part_name := Some "New" |} ];
              plan_assignment :=
                Object [ ("unit1", One (Num (safe 0))) ] |} |} ]
  = Ok [ ("1", [ ("New", ["unit1"]) ]) ].
Proof. vm_compute. reflexivity. Qed.

Lemma createUnitMap_unit_under_part_name_witness :
  ∃ unitMap clusterMap units,
    createUnitMap (engine:=V8) Scenario.clusters = Ok unitMap ∧
    (label (plan_id Scenario.planA), clusterMap) ∈ unitMap ∧
    (default "undefined" (Some "Beta"), units) ∈ clusterMap ∧
    "unit2" ∈ units.
Proof.
  apply (createUnitMap_unit_under_part_name (engine:=V8) Scenario.clusters
           Scenario.clusterA Scenario.planA Scenario.assignmentA
           [ {| part_id := Some (Num (safe 0)); part_name := Some "Alpha" |} ]
           []
           {| part_id := Some (Num (safe 1)); part_name := Some "Beta" |}
           "unit2" (Many [Num (safe 0); Num (safe 1)]) (Num (safe 1))).
  - exact scenario_files.
  - apply NoDup_last_with_its_key; [by_computation | left].
  - reflexivity.
  - reflexivity.
  - reflexivity.
  - discriminate.
  - reflexivity.
  - discriminate.
  - constructor.
  - right. left.
  - right. left.
Defined.

(** ** patternsToCOIs: the queue and the shape of the mapping *)

(** X6. Whatever the unit map and the queue of patterns, [patternsToCOIs]
    does not throw, and it takes off the front of the queue as many names as
    the unit map has (cluster, COI) pairs, or all of them when there are
    fewer: what it leaves to its caller is the queue without them. *)
Theorem patternsToCOIs_takes (unitMap : UnitMap) (patterns : list string) :
  ∃ mapping,
    patternsToCOIs unitMap patterns
    = Ok (mapping, drop (numberOfNames unitMap) patterns).
Proof.
  rewrite numberOfNames_pairs. unfold patternsToCOIs, Object_entries.
  match goal with |- context [for_of ?body _ _] => set (outer := body) end.
  generalize (@nil (string * obj (option string))). revert patterns.
  induction unitMap as [|[cid cluster] um IH]; intros ps m.
  - exists m. simpl. by rewrite drop_0.
  - rewrite for_of_cons. unfold outer at 2. cbv beta iota.
    destruct (patternsToCOIs_inner cid (Object_keys cluster)
                (set cid [] m) ps [] (get_set_eq _ _ _))
      as (m1 & inner' & Hrun & _).
    match goal with
    | |- context [?run ≫= for_of outer um] =>
        replace run with (Ok (m1, drop (length (Object_keys cluster)) ps))
          by (symmetry; exact Hrun)
    end.
    rewrite bind_Ok.
    destruct (IH (drop (length (Object_keys cluster)) ps) m1) as (m' & Hrun').
    exists m'. rewrite pairs_cons, length_app, length_fmap, <- drop_drop.
    exact Hrun'.
Qed.

Section LastProperty.
Context {V : Type}.
Implicit Types (o : obj V) (k : string) (v : V).

Lemma get_last k v o : k ∉ Object_keys o → get k (o ++ [(k, v)]) = Some v.
Proof.
  intros Hk. apply get_None_not_key in Hk. rewrite get_app, Hk. simpl.
  by rewrite decide_True.
Qed.

Lemma set_new_last k v o :
  k ∉ Object_keys o → in_key_order (o ++ [(k, v)]) →
  set k v o = o ++ [(k, v)].
Proof.
  intros Hk Hord. apply get_None_not_key in Hk. unfold set. rewrite Hk.
  by apply create_last.
Qed.

Lemma set_last k v v0 o :
  k ∉ Object_keys o → set k v (o ++ [(k, v0)]) = o ++ [(k, v)].
Proof.
  intros Hk. unfold set. rewrite (get_last _ _ _ Hk).
  apply get_None_not_key in Hk.
  induction o as [|[k' v'] o IH]; simpl.
  - by rewrite decide_True.
  - simpl in Hk. case_decide as Hk'; [done|]. by rewrite IH.
Qed.
End LastProperty.

(** The loop over the COI names of a cluster, on names that are in key
    order: each name is appended to the map of the cluster with the next
    element of the queue. *)
Lemma patternsToCOIs_inner_exact (cid : string) (ks : list string) :
  ∀ (m1 : PatternMatch) (inner0 : obj (option string)) (ps : list string),
    cid ∉ Object_keys m1 →
    NoDup (Object_keys inner0 ++ ks) →
    StronglySorted key_before (Object_keys inner0 ++ ks) →
    for_of
      (λ (st : PatternMatch * list string) coiIdentifier,
         let '(mapping, patterns) := st in
         inner ← member cid mapping;
         let '(pattern, patterns) := shift patterns in
         Ok (set cid (set coiIdentifier pattern inner) mapping, patterns))
      ks (m1 ++ [(cid, inner0)], ps)
    = Ok (m1 ++ [(cid, inner0 ++ imap (λ i k, (k, ps !! i)) ks)],
          drop (length ks) ps).
Proof.
  induction ks as [|k ks IH]; intros m1 inner0 ps Hcid Hnd Hord.
  - simpl. by rewrite app_nil_r, drop_0.
  - rewrite for_of_cons.
    rewrite (member_Some _ _ _ (get_last cid inner0 m1 Hcid)), bind_Ok.
    rewrite shift_lookup, bind_Ok.
    assert (set k (ps !! 0) inner0 = inner0 ++ [(k, ps !! 0)]) as ->.
    { apply set_new_last.
      - apply NoDup_app in Hnd as (_ & Hk & _). intros Hin.
        apply (Hk k Hin). left.
      - unfold in_key_order, Object_keys. rewrite fmap_app. simpl.
        rewrite (cons_middle k), app_assoc in Hord.
        by apply StronglySorted_app_1_l in Hord. }
    rewrite (set_last cid _ inner0 m1 Hcid).
    rewrite IH.
    + rewrite <- app_assoc, drop_drop. do 4 f_equal. simpl. do 3 f_equal.
      apply imap_ext. intros i x _. simpl. by rewrite lookup_drop.
    + done.
    + unfold Object_keys. rewrite fmap_app. simpl.
      by rewrite <- app_assoc.
    + unfold Object_keys. rewrite fmap_app. simpl.
      by rewrite <- app_assoc.
Qed.

Lemma patternsToCOIs_exact_from (unitMap : UnitMap) :
  ∀ (m0 : PatternMatch) (ps : list string),
    NoDup (Object_keys m0 ++ Object_keys unitMap) →
    StronglySorted key_before (Object_keys m0 ++ Object_keys unitMap) →
    Forall (λ entry, is_object entry.2 ∧ in_key_order entry.2) unitMap →
    for_of
      (λ (st : PatternMatch * list string) (entry : string * obj (list string)),
         let '(mapping, patterns) := st in
         let '(clusterIdentifier, cluster) := entry in
         let mapping := set clusterIdentifier [] mapping in
         for_of
           (λ (st : PatternMatch * list string) coiIdentifier,
              let '(mapping, patterns) := st in
              inner ← member clusterIdentifier mapping;
              let '(pattern, patterns) := shift patterns in
              Ok (set clusterIdentifier (set coiIdentifier pattern inner) mapping,
                  patterns))
           (Object_keys cluster) (mapping, patterns))
      unitMap (m0, ps)
    = Ok (m0 ++ relabelled unitMap ps, drop (length (pairs unitMap)) ps).
Proof.
  induction unitMap as [|[cid cluster] um IH]; intros m0 ps Hnd Hord Hall.
  - simpl. by rewrite app_nil_r, drop_0.
  - unfold Object_keys in Hnd, Hord. rewrite fmap_cons in Hnd, Hord.
    simpl in Hnd, Hord.
    apply Forall_cons in Hall as [[Hcn Hco] Hall]. simpl in Hcn, Hco.
    assert (cid ∉ Object_keys m0) as Hcid.
    { apply NoDup_app in Hnd as (_ & Hk & _). intros Hin.
      apply (Hk cid Hin). left. }
    rewrite for_of_cons. cbv beta iota.
    assert (set cid [] m0 = m0 ++ [(cid, [])]) as ->.
    { apply set_new_last; [done|].
      unfold in_key_order, Object_keys. rewrite fmap_app. simpl.
      rewrite (cons_middle cid), app_assoc in Hord.
      by apply StronglySorted_app_1_l in Hord. }
    pose proof (patternsToCOIs_inner_exact cid (Object_keys cluster)
                  m0 [] ps Hcid Hcn Hco) as Hrun.
    match goal with
    | |- ?run ≫= _ = _ =>
        replace run with
          (Ok (m0 ++ [(cid, [] ++ imap (λ i k, (k, ps !! i)) (Object_keys cluster))],
               drop (length (Object_keys cluster)) ps)
           : result (PatternMatch * list string))
          by (symmetry; exact Hrun)
    end.
    rewrite bind_Ok, IH.
    + rewrite <- app_assoc, drop_drop, pairs_cons, length_app, length_fmap.
      simpl. do 4 f_equal.
      * unfold Object_keys. by rewrite imap_fmap.
      * unfold Object_keys. by rewrite length_fmap.
    + unfold Object_keys. rewrite fmap_app. simpl.
      by rewrite <- app_assoc.
    + unfold Object_keys. rewrite fmap_app. simpl.
      by rewrite <- app_assoc.
    + done.
Qed.

Lemma relabelled_shape (unitMap : UnitMap) :
  ∀ ps, shape (relabelled unitMap ps) = shape unitMap.
Proof.
  unfold shape.
  induction unitMap as [|[cid cluster] um IH]; intros ps; [done|].
  simpl relabelled. rewrite !fmap_cons, IH. simpl. do 2 f_equal.
  unfold Object_keys. rewrite fmap_imap.
  apply list_eq. intros i. rewrite list_lookup_imap, list_lookup_fmap.
  by destruct (cluster !! i).
Qed.

(** X7. On a unit map that is an object of objects, [patternsToCOIs]
    returns the unit map itself with every unit list replaced by the element
    of the queue at the position of the pair: the mapping has the clusters
    and the COI names of the unit map, in the same order. *)
Theorem patternsToCOIs_relabels (unitMap : UnitMap) (patterns : list string) :
  is_unitMap unitMap →
  in_key_order unitMap →
  Forall (λ entry, in_key_order entry.2) unitMap →
  patternsToCOIs unitMap patterns
  = Ok (relabelled unitMap patterns, drop (numberOfNames unitMap) patterns) ∧
  shape (relabelled unitMap patterns) = shape unitMap.
Proof.
  intros [Hobj Hin] Hord Hords. split; [|apply relabelled_shape].
  rewrite numberOfNames_pairs. unfold patternsToCOIs, Object_entries.
  apply (patternsToCOIs_exact_from unitMap [] patterns); [done..|].
  apply Forall_forall. intros e He. split.
  - by apply (proj1 (Forall_forall _ _) Hin).
  - by apply (proj1 (Forall_forall _ _) Hords).
Qed.

Example scenario_relabelled :
  relabelled Scenario.unitMap ["p1"; "p2"]
  = [ ("A", [ ("Alpha", Some "p1"); ("Beta", Some "p2") ]);
      ("B", [ ("Gamma", None) ]) ].
Proof. reflexivity. Qed.

Lemma scenario_in_key_order :
  in_key_order Scenario.unitMap ∧
  Forall (λ entry, in_key_order entry.2) Scenario.unitMap.
Proof.
  unfold in_key_order. split; [|repeat constructor];
    repeat (constructor; [|repeat constructor]); try constructor;
    by vm_compute.
Qed.

Lemma patternsToCOIs_relabels_witness :
  patternsToCOIs Scenario.unitMap ["p1"; "p2"; "p3"; "p4"]
  = Ok (relabelled Scenario.unitMap ["p1"; "p2"; "p3"; "p4"],
        drop (numberOfNames Scenario.unitMap) ["p1"; "p2"; "p3"; "p4"]) ∧
  shape (relabelled Scenario.unitMap ["p1"; "p2"; "p3"; "p4"])
  = shape Scenario.unitMap.
Proof.
  apply (patternsToCOIs_relabels Scenario.unitMap ["p1"; "p2"; "p3"; "p4"]).
  - exact scenario_is_unitMap.
  - exact (proj1 scenario_in_key_order).
  - exact (proj2 scenario_in_key_order).
Defined.

(** ** include *)

Lemma StronglySorted_sublist {A : Type} (R : A → A → Prop) (l1 l2 : list A) :
  l1 `sublist_of` l2 → StronglySorted R l2 → StronglySorted R l1.
Proof.
  induction 1 as [|x l1 l2 Hsub IH|x l1 l2 Hsub IH]; intros Hs; [done|..].
  - apply StronglySorted_inv in Hs as [Hs Hx]. constructor; [by apply IH|].
    apply Forall_forall. intros y Hy.
    apply (proj1 (Forall_forall _ _) Hx). by eapply elem_of_sublist.
  - apply StronglySorted_inv in Hs as [Hs _]. by apply IH.
Qed.

(** The test of [include] keeps the entries whose key is an element of the
    list. *)
Lemma filter_includes {V : Type} (included : list string) (o : obj V) :
  List.filter (λ entry, includes entry.1 included) o
  = filter (λ entry : string * V, entry.1 ∈ included) o.
Proof.
  unfold obj in *. induction o as [|[k v] o IH]; [done|].
  rewrite filter_cons. cbn [List.filter]. rewrite IH.
  unfold includes, bool_decide. cbn [fst].
  unfold decide. by destruct (decide_rel elem_of k included).
Qed.

(** X8. From an object, [include] keeps the properties whose key is an
    element of the list and no other, with their values and in the order of
    the object; a key of the list that the object does not have adds
    nothing, and a key that the list has twice is kept once. *)
Theorem include_selects {V : Type} (object : obj V) (included : list string) :
  is_object object →
  in_key_order object →
  include object included
  = filter (λ entry : string * V, entry.1 ∈ included) object ∧
  is_object (include object included) ∧
  ∀ k v, (k, v) ∈ include object included ↔ (k, v) ∈ object ∧ k ∈ included.
Proof.
  intros Hnd Hord.
  assert (include object included
          = filter (λ entry : string * V, entry.1 ∈ included) object) as H.
  { rewrite <- filter_includes. unfold include, Object_entries.
    apply (Object_fromEntries_entries
             (List.filter (λ entry, includes entry.1 included) object)).
    - eapply sublist_NoDup; [exact Hnd|].
      unfold Object_keys. rewrite filter_includes.
      apply fmap_sublist, sublist_filter.
    - unfold in_key_order in *.
      eapply StronglySorted_sublist; [|exact Hord].
      unfold Object_keys. rewrite filter_includes.
      apply fmap_sublist, sublist_filter. }
  split; [exact H|]. rewrite H. split.
  - eapply sublist_NoDup; [exact Hnd|].
    unfold Object_keys. apply fmap_sublist, sublist_filter.
  - intros k v. unfold obj in *. rewrite list_elem_of_filter. simpl. tauto.
Qed.

Lemma scenario_catalog_object :
  is_object Scenario.catalog ∧ in_key_order Scenario.catalog.
Proof.
  split; [unfold is_object; by_computation|].
  unfold in_key_order.
  repeat (constructor; [|repeat constructor]); try constructor; by vm_compute.
Qed.

Lemma include_selects_witness :
  include Scenario.catalog ["p3"; "zz"; "p1"; "p3"]
  = filter (λ entry : string * string, entry.1 ∈ ["p3"; "zz"; "p1"; "p3"])
      Scenario.catalog ∧
  is_object (include Scenario.catalog ["p3"; "zz"; "p1"; "p3"]) ∧
  ∀ k v, (k, v) ∈ include Scenario.catalog ["p3"; "zz"; "p1"; "p3"] ↔
         (k, v) ∈ Scenario.catalog ∧ k ∈ ["p3"; "zz"; "p1"; "p3"].
Proof.
  apply (include_selects Scenario.catalog ["p3"; "zz"; "p1"; "p3"]).
  - exact (proj1 scenario_catalog_object).
  - exact (proj2 scenario_catalog_object).
Defined.

Example include_example :
  include Scenario.catalog ["p3"; "zz"; "p1"; "p3"]
  = [ ("p1", "url1"); ("p3", "url3") ].
Proof. vm_compute. reflexivity. Qed.

(** ** addCOIs: the chosen patterns *)

Lemma served_Some_elem_of (ps : list string) (n i : nat) (name : string) :
  served ps n !! i = Some (Some name) → name ∈ ps.
Proof.
  unfold served. rewrite list_lookup_fmap.
  destruct (seq 0 n !! i) as [j|] eqn:E; simpl; [|done].
  intros [= H]. by apply list_elem_of_lookup_2 in H.
Qed.

(** X9. In [addCOIs] the chosen patterns are the first entries of the
    catalog, as many as there are (cluster, COI) pairs: their keys are the
    names handed to [patternsToCOIs], in that order, and every pattern a COI
    is given is one of them, so its image is among those [loadPatterns] is
    asked to load. *)
Theorem allocate_chosenPatterns (unitMap : UnitMap) (patterns : obj string) :
  is_unitMap unitMap →
  is_object patterns →
  in_key_order patterns →
  ∃ a,
    allocate unitMap patterns = Ok a ∧
    alloc_chosenPatterns a = take (numberOfNames unitMap) patterns ∧
    Object_keys (alloc_chosenPatterns a) = alloc_names a ∧
    ∀ pair name,
      pair ∈ pairs unitMap →
      assigned (alloc_patternMatch a) pair = Some name →
      ∃ url, get name (alloc_chosenPatterns a) = Some url ∧
             get name patterns = Some url.
Proof.
  intros Hum Hobj Hord.
  destruct (allocate_served unitMap patterns Hum) as (a & Ha & Hn & _ & Hass).
  exists a. split; [done|].
  assert (alloc_chosenPatterns a = take (numberOfNames unitMap) patterns) as Hc.
  { unfold allocate in Ha.
    destruct (patternsToCOIs unitMap _) as [[m rest]|e]; [|done].
    simpl in Ha. injection Ha as <-. simpl. by apply include_take. }
  split; [done|].
  assert (Object_keys (alloc_chosenPatterns a) = alloc_names a) as Hk.
  { rewrite Hc, Hn. unfold Object_keys. by rewrite fmap_take. }
  split; [done|].
  intros pair name Hpair Hname.
  apply list_elem_of_lookup in Hpair as [i Hi].
  assert ((assigned (alloc_patternMatch a) <$> pairs unitMap) !! i
          = Some (Some name)) as Hlook.
  { by rewrite list_lookup_fmap, Hi; simpl; rewrite Hname. }
  rewrite Hass in Hlook. apply served_Some_elem_of in Hlook.
  rewrite <- Hk in Hlook. apply get_is_Some_key in Hlook as [url Hurl].
  exists url. split; [done|].
  apply elem_of_get; [done|].
  apply get_Some_elem_of in Hurl. rewrite Hc in Hurl.
  eapply elem_of_sublist; [exact Hurl|apply sublist_take].
Qed.

Lemma allocate_chosenPatterns_witness :
  ∃ a,
    allocate Scenario.unitMap Scenario.catalog = Ok a ∧
    alloc_chosenPatterns a
    = take (numberOfNames Scenario.unitMap) Scenario.catalog ∧
    Object_keys (alloc_chosenPatterns a) = alloc_names a ∧
    ∀ pair name,
      pair ∈ pairs Scenario.unitMap →
      assigned (alloc_patternMatch a) pair = Some name →
      ∃ url, get name (alloc_chosenPatterns a) = Some url ∧
             get name Scenario.catalog = Some url.
Proof.
  apply (allocate_chosenPatterns Scenario.unitMap Scenario.catalog).
  - exact scenario_is_unitMap.
  - exact (proj1 scenario_catalog_object).
  - exact (proj2 scenario_catalog_object).
Defined.

(** ** loadPatterns: any catalog, any order of reports *)

Section AssetLoaderOutcomes.
Context {image load_error : Type}.
Implicit Types (st : loading image)
  (reports : list (nat * option load_error * option image)).

Lemma load_callback_map i pattern (error : option load_error)
    (img : option image) st :
  map (load_callback i pattern error img st) = map st ++ [AddImage pattern img].
Proof.
  unfold load_callback, resolve, reject. rewrite settle_map. simpl.
  destruct error; [by rewrite settle_map|done].
Qed.

Lemma run_map reports :
  ∀ st, map (run reports st) = map st ++ registrations (callbacks st) reports.
Proof.
  induction reports as [|[[i error] img] reports IH]; intros st.
  - simpl. by rewrite app_nil_r.
  - change (run ((i, error, img) :: reports) st)
      with (run reports (report st (i, error, img))).
    rewrite IH, report_callbacks. unfold registrations. simpl. unfold report.
    destruct (callbacks st !! i) as [pattern|]; simpl; [|done].
    by rewrite load_callback_map, <- app_assoc.
Qed.

(** X10. Once every image requested has been reported on, in whatever order
    and however often, the array made by [loadPatterns] and
    [resolvesToArray] has one entry per pattern, in catalog order, decided by
    the first report on the pattern: its name when that report had no error,
    undefined when it had one. Every defined entry is the name of a pattern
    of the catalog. *)
Theorem loadedPatterns_settled (map0 : list (map_call image))
    (patternMapping : obj string) reports :
  (∀ i, i < length patternMapping → is_Some (first_report i reports)) →
  ∃ array,
    loadedPatterns map0 patternMapping reports = Some array ∧
    length array = length patternMapping ∧
    (∀ i pattern,
       Object_keys patternMapping !! i = Some pattern →
       array !! i = Some (entry_after pattern (first_report i reports))) ∧
    (∀ name, Some name ∈ array → name ∈ Object_keys patternMapping).
Proof.
  intros Hall. eexists.
  split; [by apply loadedPatterns_entries|].
  split; [unfold Object_keys; by rewrite length_imap, length_fmap|].
  split.
  - intros i pattern Hi. by rewrite list_lookup_imap, Hi.
  - intros name (i & pattern & Hname & Hi)%elem_of_lookup_imap.
    assert (pattern = name) as <-.
    { by destruct (first_report i reports) as [[[e|] img]|];
        simpl in Hname; try injection Hname as ->. }
    by apply list_elem_of_lookup_2 in Hi.
Qed.

(** X11. The array is there exactly when the first report on each image
    requested has come: while one request has no report the promise of
    [loadPatterns] stays pending, whatever the other reports say. *)
Theorem loadedPatterns_pending_iff (map0 : list (map_call image))
    (patternMapping : obj string) reports :
  loadedPatterns map0 patternMapping reports = None ↔
  ∃ i, i < length patternMapping ∧ first_report i reports = None.
Proof.
  split.
  - intros Hnone.
    destruct (decide (Forall (λ i, is_Some (first_report i reports))
                        (seq 0 (length patternMapping)))) as [Hall|Hex].
    + rewrite loadedPatterns_entries in Hnone; [done|].
      intros i Hi. apply (proj1 (Forall_forall _ _) Hall).
      apply elem_of_seq. lia.
    + apply not_Forall_Exists in Hex; [|apply _].
      apply Exists_exists in Hex as (i & Hi & Hnot).
      exists i. apply elem_of_seq in Hi. split; [lia|].
      simpl in Hnot. by apply eq_None_not_Some.
  - intros (i & Hi & Hnone). unfold loadedPatterns, Promise_allSettled.
    rewrite (proj2 (mapM_None _ _)); [done|].
    apply Exists_exists. exists Pending. split; [|done].
    destruct (lookup_lt_is_Some_2 (Object_keys patternMapping) i)
      as [pattern Hp].
    { unfold Object_keys. by rewrite length_fmap. }
    apply list_elem_of_lookup. exists i.
    rewrite (run_pending reports _ i pattern).
    + by rewrite Hnone.
    + by rewrite loadPatterns_state.
    + rewrite loadPatterns_state. simpl. by apply lookup_replicate.
Qed.

(** X12. What the map receives: one [loadImage] per pattern of the catalog,
    in catalog order, when [loadPatterns] is called, and then one [addImage]
    per report on one of these requests, in the order of the reports, with
    the pattern of the request and the image of the report, whether the
    report carries an error or not and whether it is the first on the
    request or not. *)
Theorem loadPatterns_map_calls (map0 : list (map_call image))
    (patternMapping : obj string) reports :
  map (loadPatterns map0 patternMapping)
  = map0 ++ (LoadImage <$> Object_values patternMapping) ∧
  map (run reports (loadPatterns map0 patternMapping))
  = map0 ++ (LoadImage <$> Object_values patternMapping)
         ++ registrations (Object_keys patternMapping) reports.
Proof.
  rewrite run_map, loadPatterns_state. simpl. by rewrite <- app_assoc.
Qed.
End AssetLoaderOutcomes.

Example four_patterns_loaded :
  loadedPatterns [] four_patterns four_reports
  = Some [None; Some "lines"; Some "waves"; Some "grid"].
Proof. vm_compute. reflexivity. Qed.

Example four_patterns_map_calls :
  map (run four_reports (loadPatterns [] four_patterns))
  = [ LoadImage "/d.png"; LoadImage "/l.png"; LoadImage "/w.png";
      LoadImage "/g.png";
      AddImage "waves" (Some "W"); AddImage "dots" None;
      AddImage "grid" (Some "G"); AddImage "waves" None;
      AddImage "lines" (Some "L") ].
Proof. vm_compute. reflexivity. Qed.

Lemma loadedPatterns_settled_witness :
  ∃ array,
    loadedPatterns [] four_patterns four_reports = Some array ∧
    length array = length four_patterns ∧
    (∀ i pattern,
       Object_keys four_patterns !! i = Some pattern →
       array !! i = Some (entry_after pattern (first_report i four_reports))) ∧
    (∀ name, Some name ∈ array → name ∈ Object_keys four_patterns).
Proof.
  apply (loadedPatterns_settled [] four_patterns four_reports).
  intros i Hi. simpl in Hi.
  destruct i as [|[|[|[|i]]]]; [by eexists..|lia].
Defined.

(** ** patternStyleExpression: when it throws *)





Example patternStyleExpression_empty_cluster (units : layer) :
  fst <$> patternStyleExpression units
            [("7", []); ("8", [("Shore", ["u1"])])] [("8", [("Shore", Some "p")])]
  = Ok (Array [Text "case"; membership ["u1"]; Text "p";
               Text "transparent"]).
Proof. reflexivity. Qed.

(** A cluster whose key is the name of a property that objects inherit
    needs no entry: the mapping is read through what it inherits. *)
Example patternStyleExpression_inherited_cluster (units : layer) :
  fst <$> patternStyleExpression units
            [("constructor", [("Shore", ["u1"])])] []
  = Ok (Array [Text "case"; membership ["u1"];
               Builtin ["constructor"; "Shore"]; Text "transparent"]).
Proof. reflexivity. Qed.

(** ** addCOIs: the patterns the COIs are painted with *)

Lemma pairs_triples (unitMap : UnitMap) :
  pairs unitMap = fst <$> triples unitMap.
Proof.
  unfold pairs, triples, Object_entries, Object_keys.
  induction unitMap as [|[cid cluster] um IH]; [done|].
  csimpl. rewrite fmap_app, IH. f_equal.
  rewrite <- !list_fmap_compose. by apply list_fmap_ext.
Qed.

Lemma branch_zip (patternMatch : PatternMatch)
    (ts : list (string * string * list string)) :
  ts ≫= branch patternMatch
  = concat
      (zip_with
         (λ (triple : string * string * list string) pattern,
            [subexpression triple.2; expr_of_pattern pattern])
         ts (assigned patternMatch <$> (fst <$> ts))).
Proof.
  induction ts as [|[[cid coiName] geoids] ts IH]; [done|].
  csimpl. by rewrite IH.
Qed.

Lemma served_take (ps : list string) (n : nat) :
  served (take n ps) n = served ps n.
Proof.
  unfold served. apply list_fmap_ext. intros k i Hi.
  apply lookup_seq in Hi as [-> Hi]. by apply lookup_take_lt.
Qed.

Lemma allocate_painted (units : layer) (unitMap : UnitMap)
    (patterns : obj string) :
  is_unitMap unitMap →
  ∃ a,
    allocate unitMap patterns = Ok a ∧
    alloc_unitMap a = unitMap ∧
    patternStyleExpression units unitMap (alloc_patternMatch a)
    = Ok (Array (Text "case" :: painted unitMap (Object_keys patterns)
                   ++ [Text "transparent"]),
          setPaintProperty "fill-pattern"
            (Array (Text "case" :: painted unitMap (Object_keys patterns)
                      ++ [Text "transparent"])) units).
Proof.
  intros Hum. unfold allocate, slice0.
  destruct (patternsToCOIs_served unitMap
              (take (numberOfNames unitMap) (Object_keys patterns)) Hum)
    as (m & Hrun & Hass & _).
  destruct (patternsToCOIs_allots unitMap
              (take (numberOfNames unitMap) (Object_keys patterns)) Hum)
    as (m' & rest & Hrun' & Hm).
  rewrite Hrun in Hrun'. injection Hrun' as <- _.
  rewrite <- numberOfNames_pairs in Hrun, Hass.
  rewrite Hrun, bind_Ok. eexists. split; [done|]. split; [done|]. simpl.
  unfold patternStyleExpression.
  rewrite (patternStyleExpression_loop unitMap m Hm), bind_Ok.
  rewrite branch_zip, <- pairs_triples, Hass, served_take. done.
Qed.

(** X14. The pattern mapping [addCOIs] builds makes [patternStyleExpression]
    paint the COIs of the unit map, in its enumeration order, with the names
    of the catalog in catalog order: the expression is "case", then for the
    i-th COI its membership test followed by the i-th name of the catalog,
    undefined from the COI on at which the catalog has run out, then
    "transparent". *)
Theorem allocate_paints_in_catalog_order (units : layer) (unitMap : UnitMap)
    (patterns : obj string) :
  is_unitMap unitMap →
  ∃ a expression,
    allocate unitMap patterns = Ok a ∧
    expression
    = Array (Text "case" :: painted unitMap (Object_keys patterns)
               ++ [Text "transparent"]) ∧
    patternStyleExpression units unitMap (alloc_patternMatch a)
    = Ok (expression, setPaintProperty "fill-pattern" expression units) ∧
    length (painted unitMap (Object_keys patterns))
    = 2 * numberOfNames unitMap.
Proof.
  intros Hum.
  destruct (allocate_painted units unitMap patterns Hum) as (a & Ha & _ & He).
  exists a. eexists. split; [exact Ha|]. split; [reflexivity|].
  split; [exact He|].
  unfold painted.
  assert (length (triples unitMap) = numberOfNames unitMap) as Hlen.
  { by rewrite numberOfNames_pairs, pairs_triples, length_fmap. }
  assert (length (served (Object_keys patterns) (numberOfNames unitMap))
          = numberOfNames unitMap) as Hlen'.
  { unfold served. by rewrite length_fmap, length_seq. }
  revert Hlen Hlen'.
  generalize (served (Object_keys patterns) (numberOfNames unitMap)).
  generalize (numberOfNames unitMap). generalize (triples unitMap).
  induction l as [|t l IH]; intros n sv Hl Hsv.
  - simpl in Hl. subst n. done.
  - destruct sv as [|p sv]; simpl in Hl, Hsv; [lia|].
    destruct n as [|n]; [lia|]. simpl.
    rewrite (IH n sv) by lia. lia.
Qed.

Example scenario_painted_short :
  painted Scenario.unitMap (Object_keys Scenario.short_catalog)
  = [ subexpression ["unit1"; "unit2"]; Text "p1";
      subexpression ["unit2"]; Text "p2";
      subexpression ["unit3"]; Undef ].
Proof. reflexivity. Qed.

Lemma allocate_paints_in_catalog_order_witness :
  ∃ a expression,
    allocate Scenario.unitMap Scenario.short_catalog = Ok a ∧
    expression
    = Array (Text "case"
               :: painted Scenario.unitMap (Object_keys Scenario.short_catalog)
               ++ [Text "transparent"]) ∧
    patternStyleExpression {| layer_type := "fill"; layer_calls := [] |}
      Scenario.unitMap (alloc_patternMatch a)
    = Ok (expression,
          setPaintProperty "fill-pattern" expression
            {| layer_type := "fill"; layer_calls := [] |}) ∧
    length (painted Scenario.unitMap (Object_keys Scenario.short_catalog))
    = 2 * numberOfNames Scenario.unitMap.
Proof.
  apply (allocate_paints_in_catalog_order
           {| layer_type := "fill"; layer_calls := [] |}
           Scenario.unitMap Scenario.short_catalog).
  exact scenario_is_unitMap.
Defined.

(** ** addCOIs: the whole chain *)

Lemma forallb_files_eligible {engine : Engine} (clusters : list cluster) :
  forallb files (List.filter eligible clusters) = false ↔
  ∃ c, c ∈ clusters ∧ eligible c = true ∧ files c = false.
Proof.
  rewrite forallb_false_elem. split.
  - intros (c & Hc & Hf). exists c.
    apply list_elem_of_In, filter_In in Hc as [Hc He].
    split; [by apply list_elem_of_In|done].
  - intros (c & Hc & He & Hf). exists c. split; [|done].
    apply list_elem_of_In, filter_In. split; [by apply list_elem_of_In|done].
Qed.

(** X15. Given what the two fetches delivered, [addCOIs] throws, a
    TypeError, exactly when a cluster that the validator lets through cannot
    be filed in the unit map; no catalog and no reports of the engine make
    it throw. When every validated cluster can be filed, it requests the
    images of the chosen patterns and no others, and registers one image per
    report on them. Its promise is fulfilled exactly when the one of
    [loadPatterns] is; until then the target receives no call. When it is
    fulfilled, the target has received the style expression that paints the
    COIs with the catalog names in order, whether their images loaded or
    not, then opacity 0, and the object returned holds the clusters as
    fetched, not the filtered ones, the unit map of the filtered ones, the
    pattern mapping, the target and the chosen patterns. *)
Theorem addCOIs_outcome {engine : Engine} {image load_error : Type}
    (map0 : list (map_call image)) (coiunits : layer)
    (clusters : list cluster) (patterns : obj string)
    (reports : list (nat * option load_error * option image)) :
  (addCOIs map0 coiunits clusters patterns reports = Throw TypeError ↔
   ∃ c, c ∈ clusters ∧ eligible c = true ∧ files c = false) ∧
  (Forall (λ c, eligible c = true → files c = true) clusters →
   ∃ unitMap a units' fulfilment,
     createUnitMap (List.filter eligible clusters) = Ok unitMap ∧
     allocate unitMap patterns = Ok a ∧
     addCOIs map0 coiunits clusters patterns reports
     = Ok (map0 ++ (LoadImage <$> Object_values (alloc_chosenPatterns a))
                ++ registrations (Object_keys (alloc_chosenPatterns a)) reports,
           units', fulfilment) ∧
     (fulfilment = None ↔
      loadedPatterns map0 (alloc_chosenPatterns a) reports = None) ∧
     (fulfilment = None → units' = coiunits) ∧
     (∀ v, fulfilment = Some v →
        v = {| vis_clusters := clusters;
               vis_unitMap := unitMap;
               vis_patternMatch := alloc_patternMatch a;
               vis_units := units';
               vis_chosenPatterns := alloc_chosenPatterns a |} ∧
        units'
        = {| layer_type := layer_type coiunits;
             layer_calls :=
               layer_calls coiunits ++
               [ SetPaintProperty "fill-pattern"
                   (Array (Text "case"
                             :: painted unitMap (Object_keys patterns)
                             ++ [Text "transparent"]));
                 SetOpacity 0%float ] |})).
Proof.
  pose proof (forallb_files_eligible clusters) as Hiff.
  unfold addCOIs. rewrite filterCOIs_filter, bind_Ok.
  pose proof (createUnitMap_fold (List.filter eligible clusters)) as Hfold.
  destruct (forallb files (List.filter eligible clusters)) eqn:Hb.
  - pose proof (createUnitMap_Ok_is_unitMap _ _ Hfold) as Hobj.
    rewrite Hfold, bind_Ok.
    set (um := fold_left filed (List.filter eligible clusters) []) in *.
    destruct (allocate_painted coiunits um patterns Hobj) as (a & Ha & _ & He).
    rewrite Ha, bind_Ok. cbv zeta.
    rewrite run_map, loadPatterns_state. simpl callbacks. simpl map.
    rewrite <- app_assoc.
    match goal with
    | |- (?run = Throw TypeError ↔ _) ∧ _ =>
        assert
          (∃ units' fulfilment,
             run
             = Ok (map0
                     ++ (LoadImage <$> Object_values (alloc_chosenPatterns a))
                     ++ registrations (Object_keys (alloc_chosenPatterns a))
                          reports,
                   units', fulfilment) ∧
             (fulfilment = None ↔
              loadedPatterns map0 (alloc_chosenPatterns a) reports = None) ∧
             (fulfilment = None → units' = coiunits) ∧
             (∀ v, fulfilment = Some v →
                v = {| vis_clusters := clusters;
                       vis_unitMap := um;
                       vis_patternMatch := alloc_patternMatch a;
                       vis_units := units';
                       vis_chosenPatterns := alloc_chosenPatterns a |} ∧
                units'
                = {| layer_type := layer_type coiunits;
                     layer_calls :=
                       layer_calls coiunits ++
                       [ SetPaintProperty "fill-pattern"
                           (Array (Text "case"
                                     :: painted um (Object_keys patterns)
                                     ++ [Text "transparent"]));
                         SetOpacity 0%float ] |}))
          as (units' & fulfilment & Hrun & Hrest)
    end.
    { unfold loadedPatterns. rewrite loadPatterns_state.
      match goal with
      | |- context [match ?settled with Some _ => _ | None => _ end] =>
          destruct settled as [array|]
      end.
      - rewrite He, bind_Ok. do 2 eexists.
        split; [reflexivity|]. split; [done|]. split; [done|].
        intros v [= <-]. split; [reflexivity|].
        unfold setOpacity, setPaintProperty. simpl. by rewrite <- app_assoc.
      - do 2 eexists. split; [reflexivity|]. done. }
    rewrite Hrun. split.
    + split; [done|]. intros Hc. apply Hiff in Hc. done.
    + intros _. by exists um, a, units', fulfilment.
  - rewrite Hfold. csimpl. split.
    + split; [intros _; by apply Hiff | done].
    + intros Hall. destruct (proj1 Hiff eq_refl) as (c & Hc & He & Hf).
      pose proof (proj1 (Forall_forall _ _) Hall c Hc He). congruence.
Qed.

Example scenario_addCOIs_pending :
  addCOIs (engine:=V8) [] {| layer_type := "fill"; layer_calls := [] |}
    Scenario.clusters Scenario.catalog
    [ (1, None, Some "image2"); (0, Some "404", @None string) ]
  = Ok ([ LoadImage "url1"; LoadImage "url2"; LoadImage "url3";
          AddImage "p2" (Some "image2"); AddImage "p1" None ],
        {| layer_type := "fill"; layer_calls := [] |}, None).
Proof. vm_compute. reflexivity. Qed.

Example scenario_addCOIs_fulfilled :
  (λ out : list (map_call string) * layer * option visualization,
     (layer_calls out.1.2, vis_clusters <$> out.2)) <$>
    addCOIs (engine:=V8) [] {| layer_type := "fill"; layer_calls := [] |}
      (Scenario.no_plan :: Scenario.clusters) Scenario.catalog
      [ (1, None, Some "image2"); (0, Some "404", @None string);
        (2, None, Some "image3") ]
  = Ok ([ SetPaintProperty "fill-pattern"
            (Array [ Text "case";
                     subexpression ["unit1"; "unit2"]; Text "p1";
                     subexpression ["unit2"]; Text "p2";
                     subexpression ["unit3"]; Text "p3";
                     Text "transparent" ]);
          SetOpacity 0%float ],
        Some (Scenario.no_plan :: Scenario.clusters)).
Proof. vm_compute. reflexivity. Qed.

(** A cluster that the validator lets through and that cannot be filed:
    one of its COIs is named "constructor". *)
Example addCOIs_throws :
  addCOIs (engine:=V8) [] {| layer_type := "fill"; layer_calls := [] |}
    [Scenario.clusterA; Scenario.constructor_cluster] Scenario.catalog
    [ (0, @None string, Some "image1") ]
  = Throw TypeError.
Proof. vm_compute. reflexivity. Qed.

Lemma addCOIs_outcome_witness :
  ∃ unitMap a units' fulfilment,
    createUnitMap (engine:=V8) (List.filter eligible Scenario.clusters)
    = Ok unitMap ∧
    allocate unitMap Scenario.catalog = Ok a ∧
    addCOIs (engine:=V8) [] Scenario.fill_layer Scenario.clusters
      Scenario.catalog
      [ (1, None, Some "image2"); (0, Some "404", @None string);
        (2, None, Some "image3") ]
    = Ok ([] ++ (LoadImage <$> Object_values (alloc_chosenPatterns a))
             ++ registrations (Object_keys (alloc_chosenPatterns a))
                  [ (1, None, Some "image2"); (0, Some "404", @None string);
                    (2, None, Some "image3") ],
          units', fulfilment) ∧
    (fulfilment = None ↔
     loadedPatterns [] (alloc_chosenPatterns a)
       [ (1, None, Some "image2"); (0, Some "404", @None string);
         (2, None, Some "image3") ] = None) ∧
    (fulfilment = None → units' = Scenario.fill_layer) ∧
    (∀ v, fulfilment = Some v →
       v = {| vis_clusters := Scenario.clusters;
              vis_unitMap := unitMap;
              vis_patternMatch := alloc_patternMatch a;
              vis_units := units';
              vis_chosenPatterns := alloc_chosenPatterns a |} ∧
       units'
       = {| layer_type := layer_type Scenario.fill_layer;
            layer_calls :=
              layer_calls Scenario.fill_layer ++
              [ SetPaintProperty "fill-pattern"
                  (Array (Text "case"
                            :: painted unitMap (Object_keys Scenario.catalog)
                            ++ [Text "transparent"]));
                SetOpacity 0%float ] |}).
Proof.
  apply (proj2 (addCOIs_outcome (engine:=V8) [] Scenario.fill_layer
                  Scenario.clusters Scenario.catalog
                  [ (1, None, Some "image2"); (0, Some "404", @None string);
                    (2, None, Some "image3") ])).
  repeat constructor.
Defined.

(** ** opacityStyleExpression: the property it sets *)

Lemma length_append (s1 s2 : string) :
  String.length (s1 +:+ s2) = String.length s1 + String.length s2.
Proof. induction s1 as [|a s1 IH]; [done|]. simpl. by rewrite IH. Qed.

(** X16. On a target whose type holds "symbol", the property
    [opacityStyleExpression] sets is the type with its first "symbol", and
    that one only, turned into "icon", followed by "-opacity": what comes
    before and after the first occurrence is kept as it is, a later "symbol"
    included. The call is added after those the target had received and the
    type of the target is not changed. *)
Theorem opacityStyleExpression_first_symbol
    (units : layer) (geoids : list string) (opacity : option float)
    (pre post : string) :
  layer_type units = pre +:+ "symbol" +:+ post →
  (∀ pre' post',
     pre +:+ "symbol" +:+ post = pre' +:+ "symbol" +:+ post' →
     String.length pre ≤ String.length pre') →
  ∃ filter,
    opacityStyleExpression units geoids opacity
    = {| layer_type := pre +:+ "symbol" +:+ post;
         layer_calls :=
           layer_calls units ++
           [SetPaintProperty ((pre +:+ "icon" +:+ post) +:+ "-opacity")
              filter] |}.
Proof.
  intros Htype Hfirst. eexists.
  unfold opacityStyleExpression, setPaintProperty.
  rewrite Htype, (replace_first "symbol" "icon" pre post Hfirst).
  reflexivity.
Qed.

(** X17. On a target whose type does not hold "symbol", the property
    [opacityStyleExpression] sets is the type followed by "-opacity". *)
Theorem opacityStyleExpression_other_types
    (units : layer) (geoids : list string) (opacity : option float) :
  (∀ pre post, layer_type units ≠ pre +:+ "symbol" +:+ post) →
  ∃ filter,
    opacityStyleExpression units geoids opacity
    = {| layer_type := layer_type units;
         layer_calls :=
           layer_calls units ++
           [SetPaintProperty (layer_type units +:+ "-opacity") filter] |}.
Proof.
  intros Habs. eexists.
  unfold opacityStyleExpression, setPaintProperty.
  rewrite (replace_absent "symbol" "icon" _ Habs). reflexivity.
Qed.

Example opacity_of_two_symbols :
  layer_calls
    (opacityStyleExpression
       {| layer_type := "symbol-symbol"; layer_calls := [] |} ["u"] None)
  = [ SetPaintProperty "icon-symbol-opacity"
        (Array [Text "case"; subexpression ["u"];
                Number 0%float; Number (1 / 3)%float]) ].
Proof. reflexivity. Qed.

Lemma opacityStyleExpression_first_symbol_witness :
  ∃ filter,
    opacityStyleExpression
      {| layer_type := "symbol-symbol"; layer_calls := [] |} ["u"] None
    = {| layer_type := EmptyString +:+ "symbol" +:+ "-symbol";
         layer_calls :=
           [] ++
           [SetPaintProperty
              ((EmptyString +:+ "icon" +:+ "-symbol") +:+ "-opacity")
              filter] |}.
Proof.
  apply (opacityStyleExpression_first_symbol
           {| layer_type := "symbol-symbol"; layer_calls := [] |} ["u"] None
           EmptyString "-symbol").
  - reflexivity.
  - intros pre' post' _. simpl. lia.
Defined.

Lemma opacityStyleExpression_other_types_witness :
  ∃ filter,
    opacityStyleExpression
      {| layer_type := "fill"; layer_calls := [] |} ["u"] (Some 1%float)
    = {| layer_type := "fill";
         layer_calls := [] ++ [SetPaintProperty ("fill" +:+ "-opacity") filter] |}.
Proof.
  apply (opacityStyleExpression_other_types
           {| layer_type := "fill"; layer_calls := [] |} ["u"] (Some 1%float)).
  intros pre post H. apply (f_equal String.length) in H.
  rewrite !length_append in H. simpl in H. lia.
Defined.
